(** * nanobanana-cli: prompt expansion and output-name allocation

    A shallow embedding of the library code of the command-line client
    ([lib.ts]: [genFilename], [getApiKey], [isBase64], [parseArgs],
    [generate]) and of the [generate] case of [cli.ts], followed by the
    properties of the prompt expander and of the output allocator.

    Conventions of the embedding.
    - A JavaScript string is the list of its UTF-16 code units, each a
      natural number ([N]).  Regular expressions without the [u] flag work
      on code units, and so do [length] and [slice].
    - [String.prototype.toLowerCase] is the platform's Unicode case table.
      It is a parameter of the development ([toLowerCase]); [asciiLower]
      is what it does on ASCII text and is used to run examples.
    - A JavaScript number that holds a loop index or a counter is an [N];
      the [count] option, which comes out of [parseInt], is a [Z].
      Numbers are taken below 2^53 and arrays below 2^32 elements, where
      the arithmetic of the source is exact and [Array(n)] does not throw.
    - The output directory is the finite map from the names of its entries
      to their contents; [fs.existsSync] is membership in its domain. *)

From Stdlib Require Import NArith ZArith String Ascii List DecimalString DecimalN Lia.
From stdpp Require Import gmap list.
Import ListNotations.

Local Open Scope N_scope.

(** ** Strings *)

Abbreviation jsstring := (list N).

(** A string literal of the source, as code units. *)
Definition str (s : string) : jsstring :=
  map N_of_ascii (list_ascii_of_string s).

(** [`${n}`] for a non-negative integer [n]: its decimal digits. *)
Definition num_to_string (n : N) : jsstring :=
  str (NilZero.string_of_uint (N.to_uint n)).

Definition in_range (lo hi c : N) : bool := (lo <=? c) && (c <=? hi).

(** The class [a-z]. *)
Definition is_lower_az (c : N) : bool := in_range 97 122 c.

(** The class [0-9]. *)
Definition is_digit (c : N) : bool := in_range 48 57 c.

(** The class [\s]: ECMAScript WhiteSpace and LineTerminator code points,
    all of them in the basic plane. *)
Definition is_space (c : N) : bool :=
  in_range 9 13 c || (c =? 32) || (c =? 160) || (c =? 5760)
  || in_range 8192 8202 c || (c =? 8232) || (c =? 8233) || (c =? 8239)
  || (c =? 8287) || (c =? 12288) || (c =? 65279).

(** The class [a-z0-9\s]; the pattern of the source is its complement. *)
Definition is_kept (c : N) : bool := is_lower_az c || is_digit c || is_space c.

Definition underscore : N := 95.

(** [toLowerCase] on ASCII text: [A-Z] moves to [a-z], the rest stays. *)
Definition asciiLower (s : jsstring) : jsstring :=
  map (fun c => if in_range 65 90 c then c + 32 else c) s.

(** [s.replace(/[cls]/g, by)] for a pattern that is one character class:
    every code unit in the class is replaced. *)
Definition replace_class (cls : N -> bool) (by_ : jsstring) (s : jsstring) : jsstring :=
  flat_map (fun c => if cls c then by_ else [c]) s.

(** [s.replace(/[cls]+/g, by)]: the scanner copies code units until one is
    in the class, emits [by] once, and skips the rest of the (greedy)
    match. *)
Fixpoint replace_class_plus (cls : N -> bool) (by_ : jsstring) (s : jsstring) : jsstring :=
  match s with
  | [] => []
  | c :: r =>
      if cls c then by_ ++ skip_class_plus cls by_ r
      else c :: replace_class_plus cls by_ r
  end
with skip_class_plus (cls : N -> bool) (by_ : jsstring) (s : jsstring) : jsstring :=
  match s with
  | [] => []
  | c :: r =>
      if cls c then skip_class_plus cls by_ r
      else c :: replace_class_plus cls by_ r
  end.

(** [s.slice(0, n)]. *)
Definition slice0 (n : nat) (s : jsstring) : jsstring := firstn n s.

(** [s || d] on strings: the empty string is falsy. *)
Definition or_else (s d : jsstring) : jsstring :=
  match s with
  | [] => d
  | _ => s
  end.

(** ** The output allocator *)

Section Allocator.

Variable toLowerCase : jsstring -> jsstring.

(** The stem computed on the first line of [genFilename]:
    [prompt.toLowerCase().replace(/[^a-z0-9\s]/g, "").replace(/\s+/g, "_").slice(0, 32) || "image"]. *)
Definition genFilename_base (prompt : jsstring) : jsstring :=
  or_else
    (slice0 32
       (replace_class_plus is_space [underscore]
          (replace_class (fun c => negb (is_kept c)) [] (toLowerCase prompt))))
    (str "image").

(** [fs.existsSync(path.join(out, name))], where [dir] holds the names of
    the entries of [out]. *)
Definition existsSync (dir : gset jsstring) (name : jsstring) : bool :=
  bool_decide (name ∈ dir).

(** [`${base}.png`] *)
Definition plain_name (base : jsstring) : jsstring := base ++ str ".png".

(** [`${base}_${c}.png`] *)
Definition numbered_name (base : jsstring) (c : N) : jsstring :=
  base ++ [underscore] ++ num_to_string c ++ str ".png".

(** The loop [while (fs.existsSync(path.join(out, name))) name = `${base}_${c++}.png`]
    as a big-step relation: from the state [(name, c)] the loop evaluates
    [existsSync] on the names [probes], in that order, and leaves [name']
    in [name]. *)
Inductive genFilename_while (dir : gset jsstring) (base : jsstring) :
  jsstring -> N -> list jsstring -> jsstring -> Prop :=
| while_exit name c :
    existsSync dir name = false ->
    genFilename_while dir base name c [name] name
| while_iter name c probes name' :
    existsSync dir name = true ->
    genFilename_while dir base (numbered_name base c) (c + 1) probes name' ->
    genFilename_while dir base name c (name :: probes) name'.

(** The same loop as a function, running at most [fuel] tests. *)
Fixpoint genFilename_loop (fuel : nat) (dir : gset jsstring) (base name : jsstring) (c : N)
  : jsstring :=
  match fuel with
  | O => name
  | S fuel' =>
      if existsSync dir name
      then genFilename_loop fuel' dir base (numbered_name base c) (c + 1)
      else name
  end.

(** [genFilename(prompt, idx, outputDir)].  One test more than the
    directory has entries is enough for the loop to leave ([genFilename_runs]
    below relates the result to [genFilename_while]). *)
Definition genFilename (prompt : jsstring) (idx : N) (dir : gset jsstring) : jsstring :=
  let base := genFilename_base prompt in
  let name := plain_name base in
  let c := if 0 <? idx then idx else 1 in
  genFilename_loop (S (size dir)) dir base name c.

End Allocator.

(** ** The prompt expander *)

(** [GenerateOptions].  [count] is [None] when the property is [undefined]
    or [NaN], which the two tests of the source do not tell apart;
    [preview] only opens the written files afterwards and is left out.
    [outputDir] is the resolved path [opts.outputDir || ensureOutputDir()]. *)
Record GenerateOptions := {
  count : option Z;
  styles : option (list jsstring);
  variations : option (list jsstring);
  outputDir : jsstring
}.

(** [`${prompt}, ${s} style`] *)
Definition styled (prompt s : jsstring) : jsstring :=
  prompt ++ str ", " ++ s ++ str " style".

(** [if (opts.styles?.length) prompts = opts.styles.map(s => ...)] *)
Definition apply_styles (prompt : jsstring) (styles : option (list jsstring))
    (prompts : list jsstring) : list jsstring :=
  match styles with
  | Some (s :: ss) => map (styled prompt) (s :: ss)
  | _ => prompts
  end.

(** The body of the inner loop over the variations: what one tag [v]
    pushes on [prompts] for the prompt [b]. *)
Definition push_variation (b : jsstring) (prompts : list jsstring) (v : jsstring)
  : list jsstring :=
  if decide (v = str "lighting") then
    (prompts ++ [b ++ str ", dramatic lighting"]) ++ [b ++ str ", soft lighting"]
  else if decide (v = str "mood") then
    (prompts ++ [b ++ str ", cheerful mood"]) ++ [b ++ str ", dramatic mood"]
  else prompts ++ [b ++ str ", " ++ v].

(** [if (opts.variations?.length) { const base = prompts; prompts = [];
    for (const b of base) for (const v of opts.variations) ... }] *)
Definition apply_variations (variations : option (list jsstring))
    (prompts : list jsstring) : list jsstring :=
  match variations with
  | Some (v :: vs) =>
      fold_left (fun acc b => fold_left (push_variation b) (v :: vs) acc) prompts []
  | _ => prompts
  end.

(** [a.slice(0, e)]: a negative [e] counts from the end. *)
Definition slice_to {A} (e : Z) (a : list A) : list A :=
  if (e <? 0)%Z then firstn (Z.to_nat (Z.of_nat (length a) + e)) a
  else firstn (Z.to_nat e) a.

(** [if (opts.count && opts.count > 1 && prompts.length === 1)
      prompts = Array(opts.count).fill(prompt)] *)
Definition replicate_single (prompt : jsstring) (count : option Z)
    (prompts : list jsstring) : list jsstring :=
  match count with
  | Some n =>
      if negb (n =? 0)%Z && (1 <? n)%Z && (length prompts =? 1)%nat
      then repeat prompt (Z.to_nat n)
      else prompts
  | None => prompts
  end.

(** [if (opts.count && prompts.length > opts.count)
      prompts = prompts.slice(0, opts.count)] *)
Definition truncate_to_count (count : option Z) (prompts : list jsstring)
  : list jsstring :=
  match count with
  | Some n =>
      if negb (n =? 0)%Z && (n <? Z.of_nat (length prompts))%Z
      then slice_to n prompts
      else prompts
  | None => prompts
  end.

(** The list after the style and variation steps. *)
Definition styled_and_varied (prompt : jsstring) (opts : GenerateOptions) : list jsstring :=
  apply_variations (variations opts) (apply_styles prompt (styles opts) [prompt]).

(** The prompts that [generate] submits: [let prompts = [prompt]] and the
    four statements after it. *)
Definition generate_prompts (prompt : jsstring) (opts : GenerateOptions) : list jsstring :=
  truncate_to_count (count opts)
    (replicate_single prompt (count opts) (styled_and_varied prompt opts)).

(** ** Credentials *)

(** The result of a call: a value, an exception, or [process.exit]. *)
Inductive completion (A : Type) :=
| Normal (a : A)
| Throw (msg : jsstring)
| Exit (code : Z).
Arguments Normal {A} a.
Arguments Throw {A} msg.
Arguments Exit {A} code.

(** [a || b] on values that are a string or [undefined]. *)
Definition or_undefined (a b : option jsstring) : option jsstring :=
  match a with
  | Some (_ :: _) => a
  | _ => b
  end.

(** [process.env.NANOBANANA_GEMINI_API_KEY || process.env.GEMINI_API_KEY
     || process.env.GOOGLE_API_KEY] *)
Definition api_key_lookup (env : gmap jsstring jsstring) : option jsstring :=
  or_undefined
    (or_undefined (env !! str "NANOBANANA_GEMINI_API_KEY") (env !! str "GEMINI_API_KEY"))
    (env !! str "GOOGLE_API_KEY").

Definition no_key_message : jsstring :=
  str "No API key found. Set GEMINI_API_KEY environment variable.".

(** [getApiKey] of the library: throws when no variable is set. *)
Definition getApiKey (env : gmap jsstring jsstring) : completion jsstring :=
  match api_key_lookup env with
  | Some (c :: k) => Normal (c :: k)
  | _ => Throw no_key_message
  end.

(** ** The process: console, output directory, requests *)

(** One call of [console.log] or [console.error]. *)
Inductive output :=
| Log (line : jsstring)
| Err (line : jsstring).

(** What a run can observe and change: the entries of the output
    directory with their contents, the console calls so far and the prompts
    sent to the remote model so far (the last two with the latest at the
    end). *)
Record world := {
  disk : gmap jsstring jsstring;
  console : list output;
  requests : list jsstring
}.

Definition print (o : output) (w : world) : world :=
  {| disk := disk w; console := console w ++ [o]; requests := requests w |}.

Definition send (prompt : jsstring) (w : world) : world :=
  {| disk := disk w; console := console w; requests := requests w ++ [prompt] |}.

(** [getApiKey] of the single-file build: prints the help on the key and
    leaves the process with status 1. *)
Definition no_key_help : jsstring :=
  [10] ++ str "Error: No API key found." ++ [10; 10]
  ++ str "Set your Gemini API key:" ++ [10]
  ++ str "  export GEMINI_API_KEY=" ++ [34] ++ str "your-api-key" ++ [34; 10; 10]
  ++ str "Get one at: https://aistudio.google.com/apikey" ++ [10].

Definition getApiKey_exit (env : gmap jsstring jsstring) (w : world)
  : world * completion jsstring :=
  match api_key_lookup env with
  | Some (c :: k) => (w, Normal (c :: k))
  | _ => (print (Err no_key_help) w, Exit 1)
  end.

(** [path.join(out, name)] for a normalised [out] and a plain file name,
    with the POSIX separator. *)
Definition path_join (out name : jsstring) : jsstring := out ++ str "/" ++ name.

(** [saveImage(b64, filename, outputDir)]: the entry [filename] now holds
    the bytes that [b64] encodes (kept here as [b64] itself); the write is
    taken to succeed.  Returns the full path. *)
Definition saveImage (b64 filename out : jsstring) (w : world) : world * jsstring :=
  ({| disk := <[filename := b64]> (disk w); console := console w; requests := requests w |},
   path_join out filename).

(** ** Responses of the remote model *)

(** A part of a response: [inlineData?.data] and [text]. *)
Record part := {
  inlineData_data : option jsstring;
  text : option jsstring
}.

(** What [await ai.models.generateContent(...)] does: it rejects with an
    error whose [e.message || e] is [msg], or resolves to a response whose
    [candidates?.[0]?.content?.parts || []] is [parts]. *)
Inductive response :=
| Rejected (msg : jsstring)
| Resolved (parts : list part).

(** The class [A-Za-z0-9+/]. *)
Definition is_base64_char (c : N) : bool :=
  in_range 65 90 c || in_range 97 122 c || is_digit c || (c =? 43) || (c =? 47).

Fixpoint drop_while (p : N -> bool) (s : jsstring) : jsstring :=
  match s with
  | [] => []
  | c :: r => if p c then drop_while p r else s
  end.

(** [/^[A-Za-z0-9+/]*={0,2}$/.test(d)]: after the longest run of alphabet
    characters at most two [=] are left. *)
Definition base64_shape (d : jsstring) : bool :=
  match drop_while is_base64_char d with
  | [] | [61] | [61; 61] => true
  | _ => false
  end.

(** [isBase64(d)]: [!!d && d.length > 1000 && /.../.test(d)] *)
Definition isBase64 (d : jsstring) : bool :=
  match d with
  | [] => false
  | _ => (1000 <? length d)%nat && base64_shape d
  end.

(** [part.inlineData?.data || (part.text && isBase64(part.text) ? part.text : null)],
    with [None] for a falsy value. *)
Definition part_b64 (p : part) : option jsstring :=
  match inlineData_data p with
  | Some (c :: d) => Some (c :: d)
  | _ =>
      match text p with
      | Some (c :: t) => if isBase64 (c :: t) then Some (c :: t) else None
      | _ => None
      end
  end.

(** The inner loop of [generate] stops at the first part with image data. *)
Fixpoint first_image (parts : list part) : option jsstring :=
  match parts with
  | [] => None
  | p :: rest =>
      match part_b64 p with
      | Some b64 => Some b64
      | None => first_image rest
      end
  end.

(** ** [generate] *)

Section Generate.

Variable toLowerCase : jsstring -> jsstring.

(** The remote model: the answer to request number [i] of the call, made
    with the given prompt. *)
Variable api : nat -> jsstring -> response.

(** One turn of [for (let i = 0; i < prompts.length; i++) { try {...}
    catch (e) { console.error(`  Error: ${e.message || e}`) } }] for
    [prompts[i] = prompt]; [files] is the array being filled. *)
Definition generate_item (out : jsstring) (i : nat) (prompt : jsstring)
    (st : world * list jsstring) : world * list jsstring :=
  let w := send prompt (fst st) in
  match api i prompt with
  | Rejected msg => (print (Err (str "  Error: " ++ msg)) w, snd st)
  | Resolved parts =>
      match first_image parts with
      | Some b64 =>
          let filename := genFilename toLowerCase prompt (N.of_nat i) (dom (disk w)) in
          let wf := saveImage b64 filename out w in
          (print (Log (str "  " ++ snd wf)) (fst wf), snd st ++ [snd wf])
      | None => (w, snd st)
      end
  end.

Fixpoint generate_loop (out : jsstring) (i : nat) (prompts : list jsstring)
    (st : world * list jsstring) : world * list jsstring :=
  match prompts with
  | [] => st
  | p :: rest => generate_loop out (S i) rest (generate_item out i p st)
  end.

(** [generate(prompt, opts)]: the key is looked up first, then the prompts
    are expanded, announced and submitted one after the other. *)
Definition generate (env : gmap jsstring jsstring) (prompt : jsstring)
    (opts : GenerateOptions) (w : world) : world * completion (list jsstring) :=
  match getApiKey env with
  | Normal _ =>
      let prompts := generate_prompts prompt opts in
      let w1 :=
        print (Log (str "Generating " ++ num_to_string (N.of_nat (length prompts))
                    ++ str " image(s)...")) w in
      let st := generate_loop (outputDir opts) 0 prompts (w1, []) in
      (fst st, Normal (snd st))
  | Throw msg => (w, Throw msg)
  | Exit code => (w, Exit code)
  end.

End Generate.

(** ** The command line *)

(** [s.split(sep)] for a separator of one code unit. *)
Fixpoint split_on (sep : N) (s : jsstring) : list jsstring :=
  match s with
  | [] => [[]]
  | c :: r =>
      if c =? sep then [] :: split_on sep r
      else match split_on sep r with
           | h :: t => (c :: h) :: t
           | [] => [[c]]
           end
  end.

(** [a.join(sep)] *)
Fixpoint join (sep : jsstring) (a : list jsstring) : jsstring :=
  match a with
  | [] => []
  | [x] => x
  | x :: r => x ++ sep ++ join sep r
  end.

(** [s.startsWith(pre)] *)
Definition starts_with (pre s : jsstring) : bool :=
  bool_decide (firstn (length pre) s = pre).

(** The body of the loop of [parseArgs] for the argument [a]. *)
Definition parseArgs_step (acc : list jsstring * gmap jsstring jsstring) (a : jsstring)
  : list jsstring * gmap jsstring jsstring :=
  if starts_with (str "--") a then
    match split_on 61 (skipn 2 a) with
    | k :: v :: _ => (fst acc, <[k := or_else v (str "true")]> (snd acc))
    | k :: [] => (fst acc, <[k := str "true"]> (snd acc))
    | [] => acc
    end
  else if starts_with (str "-") a && (length a =? 2)%nat then
    (fst acc, <[skipn 1 a := str "true"]> (snd acc))
  else (fst acc ++ [a], snd acc).

(** [parseArgs(args)]: the positional arguments and the flags. *)
Definition parseArgs (args : list jsstring) : list jsstring * gmap jsstring jsstring :=
  fold_left parseArgs_step args ([], ∅).

(** The value of a digit or letter as a numeral digit. *)
Definition digit_value (c : N) : option N :=
  if is_digit c then Some (c - 48)
  else if in_range 97 122 c then Some (c - 87)
  else if in_range 65 90 c then Some (c - 55)
  else None.

(** The value of the longest prefix of [s] made of digits of radix [r],
    after the digits [acc] read so far; [None] when there is no digit. *)
Fixpoint read_digits (r : N) (acc : option N) (s : jsstring) : option N :=
  match s with
  | [] => acc
  | c :: rest =>
      match digit_value c with
      | Some d =>
          if d <? r
          then read_digits r (Some (match acc with Some a => a * r + d | None => d end)) rest
          else acc
      | None => acc
      end
  end.

(** [parseInt(s)] with no radix: leading white space, a sign, a [0x] or
    [0X] prefix, then digits; [None] is [NaN]. *)
Definition parseInt (s : jsstring) : option Z :=
  let s1 := drop_while is_space s in
  let (neg, s2) :=
    match s1 with
    | 45 :: r => (true, r)
    | 43 :: r => (false, r)
    | _ => (false, s1)
    end in
  let (radix, s3) :=
    match s2 with
    | 48 :: 120 :: r | 48 :: 88 :: r => (16, r)
    | _ => (10, s2)
    end in
  match read_digits radix None s3 with
  | Some v => Some (if neg then (- Z.of_N v)%Z else Z.of_N v)
  | None => None
  end.

(** The options that [case "generate"] of [main] builds from the flags:
    [{ count: flags.count ? parseInt(flags.count) : undefined,
       styles: flags.styles?.split(","),
       variations: flags.variations?.split(",") }]. *)
Definition generate_options (flags : gmap jsstring jsstring) (out : jsstring)
  : GenerateOptions :=
  {| count := match flags !! str "count" with
              | Some (c :: v) => parseInt (c :: v)
              | _ => None
              end;
     styles := split_on 44 <$> flags !! str "styles";
     variations := split_on 44 <$> flags !! str "variations";
     outputDir := out |}.

(** [case "generate"] of [main] on [args.slice(1)], under the handler
    [main().catch(e => { console.error(e); process.exit(1); })]: the final
    world and the exit status.  [out] is the default output directory. *)
Definition main_generate (toLowerCase : jsstring -> jsstring)
    (api : nat -> jsstring -> response) (env : gmap jsstring jsstring)
    (out : jsstring) (args : list jsstring) (w : world) : world * Z :=
  let pf := parseArgs args in
  match join (str " ") (fst pf) with
  | [] => (print (Err (str "Error: provide a prompt")) w, 1%Z)
  | prompt =>
      match generate toLowerCase api env prompt (generate_options (snd pf) out) w with
      | (w', Normal _) => (w', 0%Z)
      | (w', Throw msg) => (print (Err msg) w', 1%Z)
      | (w', Exit code) => (w', code)
      end
  end.

(** ** [story] *)

(** [x || d] for a value [x] that is a string or [undefined]. *)
Definition opt_or (x : option jsstring) (d : jsstring) : jsstring :=
  match x with
  | Some (c :: s) => c :: s
  | _ => d
  end.

(** [`${z}`] for an integer [z]. *)
Definition z_to_string (z : Z) : jsstring :=
  if (z <? 0)%Z then 45 :: num_to_string (Z.to_N (- z)) else num_to_string (Z.to_N z).

(** [StoryOptions], with [steps] as [count] above and without [preview]. *)
Record StoryOptions := {
  story_steps : option Z;
  story_type : option jsstring;
  story_style : option jsstring;
  story_transition : option jsstring;
  story_outputDir : jsstring
}.

(** [opts.steps || 4]: zero, [NaN] and [undefined] give 4. *)
Definition story_step_count (opts : StoryOptions) : Z :=
  match story_steps opts with
  | Some n => if (n =? 0)%Z then 4%Z else n
  | None => 4%Z
  end.

(** The prompt [p] that the loop of [story] builds for the index [i]. *)
Definition story_prompt (prompt : jsstring) (steps : Z) (type : jsstring)
    (opts : StoryOptions) (i : nat) : jsstring :=
  let p0 := prompt ++ str ", step " ++ num_to_string (N.of_nat (i + 1))
            ++ str " of " ++ z_to_string steps in
  let p1 :=
    if decide (type = str "process") then p0 ++ str ", instructional illustration"
    else if decide (type = str "tutorial") then p0 ++ str ", educational diagram"
    else if decide (type = str "timeline") then p0 ++ str ", chronological"
    else p0 ++ str ", " ++ opt_or (story_style opts) (str "consistent") ++ str " style" in
  if (0 <? i)%nat
  then p1 ++ str ", " ++ opt_or (story_transition opts) (str "smooth") ++ str " transition"
  else p1.

(** The prompt that names the file of step [i]:
    [`${type}_step${i + 1}_${prompt}`]. *)
Definition story_file_prompt (prompt type : jsstring) (i : nat) : jsstring :=
  type ++ str "_step" ++ num_to_string (N.of_nat (i + 1)) ++ str "_" ++ prompt.

Section Story.

Variable toLowerCase : jsstring -> jsstring.
Variable api : nat -> jsstring -> response.

(** One turn of the loop of [story]. *)
Definition story_item (out prompt : jsstring) (steps : Z) (type : jsstring)
    (opts : StoryOptions) (i : nat) (st : world * list jsstring)
  : world * list jsstring :=
  let p := story_prompt prompt steps type opts i in
  let w := send p (fst st) in
  match api i p with
  | Rejected msg =>
      (print (Err (str "  Error step " ++ num_to_string (N.of_nat (i + 1))
                   ++ str ": " ++ msg)) w, snd st)
  | Resolved parts =>
      match first_image parts with
      | Some b64 =>
          let filename :=
            genFilename toLowerCase (story_file_prompt prompt type i) 0 (dom (disk w)) in
          let wf := saveImage b64 filename out w in
          (print (Log (str "  Step " ++ num_to_string (N.of_nat (i + 1))
                       ++ str ": " ++ snd wf)) (fst wf),
           snd st ++ [snd wf])
      | None => (w, snd st)
      end
  end.

(** [n] turns of [for (let i = 0; i < steps; i++)], from the index [i] on. *)
Fixpoint story_loop (out prompt : jsstring) (steps : Z) (type : jsstring)
    (opts : StoryOptions) (n i : nat) (st : world * list jsstring)
  : world * list jsstring :=
  match n with
  | O => st
  | S n' =>
      story_loop out prompt steps type opts n' (S i)
        (story_item out prompt steps type opts i st)
  end.

(** [story(prompt, opts)] *)
Definition story (env : gmap jsstring jsstring) (prompt : jsstring)
    (opts : StoryOptions) (w : world) : world * completion (list jsstring) :=
  match getApiKey env with
  | Normal _ =>
      let steps := story_step_count opts in
      let type := opt_or (story_type opts) (str "story") in
      let w1 :=
        print (Log (str "Generating " ++ z_to_string steps ++ str "-step " ++ type
                    ++ str "...")) w in
      let st :=
        story_loop (story_outputDir opts) prompt steps type opts (Z.to_nat steps) 0
          (w1, []) in
      (fst st, Normal (snd st))
  | Throw msg => (w, Throw msg)
  | Exit code => (w, Exit code)
  end.

End Story.

(** ** [findFile] and [edit] *)

Definition OUTPUT_DIR : jsstring := str "nanobanana-output".

(** [EditOptions], without [preview]. *)
Record EditOptions := {
  edit_mode : option jsstring;
  edit_outputDir : jsstring
}.

Section Edit.

(** The file system outside the output directory and the path library
    of the platform: [path.join] on arbitrary arguments, [path.isAbsolute],
    [fs.existsSync] on paths, [process.cwd()], [process.env.HOME], and
    [(await fs.promises.readFile(fp)).toString("base64")]. *)
Variable node_path_join : jsstring -> jsstring -> jsstring.
Variable isAbsolute : jsstring -> bool.
Variable path_exists : jsstring -> bool.
Variable cwd : jsstring.
Variable HOME : option jsstring.
Variable readFile : jsstring -> completion jsstring.

(** The array [paths] of [findFile]. *)
Definition findFile_paths : list jsstring :=
  [cwd;
   node_path_join cwd OUTPUT_DIR;
   node_path_join (opt_or HOME (str "~")) (str "Downloads");
   node_path_join (opt_or HOME (str "~")) (str "Desktop")].

(** [for (const p of paths) { const full = path.join(p, filename);
      if (fs.existsSync(full)) return full; } return null] *)
Fixpoint findFile_search (paths : list jsstring) (filename : jsstring) : option jsstring :=
  match paths with
  | [] => None
  | p :: rest =>
      let full := node_path_join p filename in
      if path_exists full then Some full else findFile_search rest filename
  end.

(** [findFile(filename)] *)
Definition findFile (filename : jsstring) : option jsstring :=
  if isAbsolute filename && path_exists filename then Some filename
  else findFile_search findFile_paths filename.

Variable toLowerCase : jsstring -> jsstring.

(** The remote model on an edit request: the text and the image sent. *)
Variable api_edit : jsstring -> jsstring -> response.

(** [edit(file, prompt, opts)] of the library.  The request is recorded by
    its text part. *)
Definition edit (env : gmap jsstring jsstring) (file prompt : jsstring)
    (opts : EditOptions) (w : world) : world * completion (list jsstring) :=
  match findFile file with
  | Some (c :: fp') =>
      let fp := c :: fp' in
      let w1 :=
        print (Log ((if decide (edit_mode opts = Some (str "restore"))
                     then str "Restoring" else str "Editing")
                    ++ str " " ++ fp ++ str "...")) w in
      match getApiKey env with
      | Normal _ =>
          match readFile fp with
          | Normal imgB64 =>
              let w2 := send prompt w1 in
              match api_edit prompt imgB64 with
              | Rejected msg => (print (Err (str "Error: " ++ msg)) w2, Normal [])
              | Resolved parts =>
                  match first_image parts with
                  | Some b64 =>
                      let filename :=
                        genFilename toLowerCase
                          (opt_or (edit_mode opts) (str "edit") ++ str "_" ++ prompt)
                          0 (dom (disk w2)) in
                      let wf := saveImage b64 filename (edit_outputDir opts) w2 in
                      (print (Log (str "  " ++ snd wf)) (fst wf), Normal [snd wf])
                  | None => (w2, Normal [])
                  end
              end
          | Throw msg => (w1, Throw msg)
          | Exit code => (w1, Exit code)
          end
      | Throw msg => (w1, Throw msg)
      | Exit code => (w1, Exit code)
      end
  | _ => (w, Throw (str "File not found: " ++ file))
  end.

End Edit.

(** ** Other cases of [main] *)

(** The handler [main().catch(e => { console.error(e); process.exit(1); })]
    around a call of [generate]: the final world and the exit status. *)
Definition exit_status (r : world * completion (list jsstring)) : world * Z :=
  match r with
  | (w, Normal _) => (w, 0%Z)
  | (w, Throw msg) => (print (Err msg) w, 1%Z)
  | (w, Exit code) => (w, code)
  end.

(** The prompt [full] that [case "icon"] builds. *)
Definition icon_prompt (flags : gmap jsstring jsstring) (prompt : jsstring) : jsstring :=
  let type := opt_or (flags !! str "type") (str "app-icon") in
  let style := opt_or (flags !! str "style") (str "modern") in
  let bg := opt_or (flags !! str "background") (str "transparent") in
  let corners := opt_or (flags !! str "corners") (str "rounded") in
  let full0 := prompt ++ str ", " ++ style ++ str " style " ++ type in
  let full1 :=
    if decide (type = str "app-icon") then full0 ++ str ", " ++ corners ++ str " corners"
    else full0 in
  let full2 :=
    if decide (bg = str "transparent") then full1
    else full1 ++ str ", " ++ bg ++ str " background" in
  full2 ++ str ", clean design, high quality".

(** [(flags.sizes || "256").split(",").length] *)
Definition icon_sizes (flags : gmap jsstring jsstring) : nat :=
  length (split_on 44 (opt_or (flags !! str "sizes") (str "256"))).

(** [case "icon"] of [main] on [args.slice(1)]. *)
Definition main_icon (toLowerCase : jsstring -> jsstring)
    (api : nat -> jsstring -> response) (env : gmap jsstring jsstring)
    (out : jsstring) (args : list jsstring) (w : world) : world * Z :=
  let pf := parseArgs args in
  match join (str " ") (fst pf) with
  | [] => (print (Err (str "Error: provide a prompt")) w, 1%Z)
  | prompt =>
      exit_status
        (generate toLowerCase api env (icon_prompt (snd pf) prompt)
           {| count := Some (Z.of_nat (icon_sizes (snd pf)));
              styles := None; variations := None; outputDir := out |} w)
  end.

(** The [default] case of [main] for the command word [cmd] and
    [args.slice(1)]: [generate([cmd, ...pos].join(" "), { preview })]. *)
Definition main_default (toLowerCase : jsstring -> jsstring)
    (api : nat -> jsstring -> response) (env : gmap jsstring jsstring)
    (out : jsstring) (cmd : jsstring) (args : list jsstring) (w : world) : world * Z :=
  let pf := parseArgs args in
  exit_status
    (generate toLowerCase api env (join (str " ") (cmd :: fst pf))
       {| count := None; styles := None; variations := None; outputDir := out |} w).

(** ** The descriptions of the specification

    The definitions of this part follow the words of the specification;
    the theorems compare them with the code above. *)

(** ASCII letters and digits. *)
Definition is_alnum (c : N) : bool :=
  is_digit c || is_lower_az c || in_range 65 90 c.

(** The maximal runs of a string: consecutive code units that are all in
    the class [p] or all outside it, each run with its flag. *)
Fixpoint runs (p : N -> bool) (s : jsstring) : list (bool * jsstring) :=
  match s with
  | [] => []
  | c :: r =>
      match runs p r with
      | (b, g) :: gs =>
          if Bool.eqb (p c) b then (b, c :: g) :: gs
          else (p c, [c]) :: (b, g) :: gs
      | [] => [(p c, [c])]
      end
  end.

(** Every run of the class is replaced by [by_]; the other runs stay. *)
Definition render_runs (by_ : jsstring) (rs : list (bool * jsstring)) : jsstring :=
  concat (map (fun r : bool * jsstring => if fst r then by_ else snd r) rs).

(** "Lowercase the text, remove every character outside [a-z0-9] and
    white space, replace each run of white space with a single underscore,
    truncate to the first 32 characters; if the result is empty, the slug
    is the literal image." *)
Definition spec_slug (lower : jsstring -> jsstring) (prompt : jsstring) : jsstring :=
  let sanitized :=
    render_runs [underscore] (runs is_space (List.filter is_kept (lower prompt))) in
  let cut := firstn 32 sanitized in
  if decide (cut = []) then str "image" else cut.

(** "Collision counter starts at ordinal if ordinal > 0, else at 1." *)
Definition first_counter (ordinal : N) : N :=
  if decide (0 < ordinal) then ordinal else 1.

(** The candidate sequence [slug.png], [slug_c.png], [slug_{c+1}.png], ... *)
Definition candidate (slug : jsstring) (c : N) (k : nat) : jsstring :=
  match k with
  | O => slug ++ str ".png"
  | S j => slug ++ str "_" ++ num_to_string (c + N.of_nat j) ++ str ".png"
  end.

(** The suffixes that a variation tag stands for, in output order. *)
Definition tag_suffixes (tag : jsstring) : list jsstring :=
  if decide (tag = str "lighting") then [str ", dramatic lighting"; str ", soft lighting"]
  else if decide (tag = str "mood") then [str ", cheerful mood"; str ", dramatic mood"]
  else [str ", " ++ tag].

(** "Each input prompt is replaced by the concatenation of its
    per-variation expansions, in variation-list order." *)
Definition spec_vary (tags : list jsstring) (prompts : list jsstring) : list jsstring :=
  flat_map (fun b => flat_map (fun t => map (app b) (tag_suffixes t)) tags) prompts.

(** The value a list of options stands for when the first non-empty one
    wins. *)
Fixpoint first_non_empty (vals : list (option jsstring)) : option jsstring :=
  match vals with
  | [] => None
  | Some (c :: v) :: _ => Some (c :: v)
  | _ :: rest => first_non_empty rest
  end.

(** A request delivers when it resolves to a response that has a part
    with image data; otherwise the prompt has failed. *)
Definition delivers (r : response) : bool :=
  match r with
  | Rejected _ => false
  | Resolved parts =>
      match first_image parts with
      | Some _ => true
      | None => false
      end
  end.

(** How many of the prompts, requested as numbers [i], [i+1], ..., deliver. *)
Fixpoint delivered (api : nat -> jsstring -> response) (i : nat) (prompts : list jsstring)
  : nat :=
  match prompts with
  | [] => 0
  | p :: rest => (if delivers (api i p) then 1 else 0) + delivered api (S i) rest
  end.

(** The file [f] of a result is an entry of the output directory [out]. *)
Definition on_disk (out : jsstring) (w : world) (f : jsstring) : Prop :=
  exists name, f = path_join out name /\ is_Some (disk w !! name).

(** The characters of a file-name stem: [a-z], [0-9] and the underscore. *)
Definition is_name_char (c : N) : bool :=
  is_lower_az c || is_digit c || (c =? underscore).

(** An argument that [parseArgs] keeps as positional: neither a long flag
    nor a dash followed by one character. *)
Definition is_positional (a : jsstring) : bool :=
  negb (starts_with (str "--") a)
  && negb (starts_with (str "-") a && (length a =? 2)%nat).

(** A text after which a decimal numeral ends for [parseInt]: nothing, or
    a character that is neither a digit nor the [x] of a hex prefix. *)
Definition ends_numeral (rest : jsstring) : Prop :=
  match rest with
  | [] => True
  | c :: _ => is_digit c = false /\ c <> 120 /\ c <> 88
  end.

(** The files [files] are pairwise distinct, each an entry of the
    directory [d] under [out] whose name the directory [d0] did not have;
    [d] has the entries of [d0] with their contents and one more entry per
    file. *)
Definition new_files (out : jsstring) (d0 d : gmap jsstring jsstring)
    (files : list jsstring) : Prop :=
  NoDup files
  /\ Forall (fun f => exists name,
               f = path_join out name /\ is_Some (d !! name) /\ d0 !! name = None) files
  /\ size d = (size d0 + length files)%nat
  /\ (forall name data, d0 !! name = Some data -> d !! name = Some data).

(** * Properties *)

(** ** Strings *)

Lemma str_inj s t : str s = str t -> s = t.
Proof.
  unfold str. intros H.
  rewrite <- (string_of_list_ascii_of_string s), <- (string_of_list_ascii_of_string t).
  f_equal. revert H.
  generalize (list_ascii_of_string s) (list_ascii_of_string t).
  intros l; induction l as [|a l IH]; intros [|b l'] H; simpl in H; try discriminate; [reflexivity|].
  injection H as Hab Hl. f_equal; [|auto].
  rewrite <- (ascii_N_embedding a), <- (ascii_N_embedding b). now rewrite Hab.
Qed.

Lemma to_uint_not_nil n : N.to_uint n <> Decimal.Nil.
Proof.
  intros H. pose proof (Unsigned.of_to n) as E. rewrite H in E.
  destruct n as [|p]; [discriminate|].
  simpl in H. unfold Pos.to_uint in H.
  pose proof (DecimalPos.Unsigned.of_to p) as E'. unfold Pos.to_uint in E'.
  rewrite H in E'. discriminate.
Qed.

Lemma num_to_string_inj c c' : num_to_string c = num_to_string c' -> c = c'.
Proof.
  unfold num_to_string. intros H. apply str_inj in H.
  apply Unsigned.to_uint_inj.
  pose proof (NilZero.usu _ (to_uint_not_nil c)) as E.
  pose proof (NilZero.usu _ (to_uint_not_nil c')) as E'.
  rewrite H in E. congruence.
Qed.

(** ** The stem of the file name *)

Lemma replace_class_filter cls s :
  replace_class (fun c => negb (cls c)) [] s = List.filter cls s.
Proof.
  unfold replace_class.
  induction s as [|c s IH]; simpl; [reflexivity|].
  destruct (cls c); simpl; now rewrite IH.
Qed.

(** The scanner and the description by runs agree; the second component
    is the state of the scanner inside a match. *)
Lemma replace_class_plus_runs cls by_ s :
  replace_class_plus cls by_ s = render_runs by_ (runs cls s)
  /\ skip_class_plus cls by_ s =
     render_runs by_ match runs cls s with
                     | (true, _) :: gs => gs
                     | rs => rs
                     end.
Proof.
  induction s as [|c s [IHr IHs]]; [split; reflexivity|].
  simpl. rewrite IHr, IHs. clear IHr IHs.
  destruct (runs cls s) as [|[b g] gs]; destruct (cls c) eqn:Hc;
    try destruct b; simpl; unfold render_runs; simpl; split; reflexivity.
Qed.

Lemma genFilename_base_spec lower prompt :
  genFilename_base lower prompt = spec_slug lower prompt.
Proof.
  unfold genFilename_base, spec_slug, slice0.
  rewrite replace_class_filter.
  rewrite (proj1 (replace_class_plus_runs _ _ _)).
  destruct (firstn 32 _) as [|c l]; [reflexivity|].
  unfold or_else. destruct (decide (c :: l = [])) as [H|H]; [discriminate H | reflexivity].
Qed.

Lemma genFilename_base_length lower prompt :
  (length (genFilename_base lower prompt) <= 32)%nat.
Proof.
  unfold genFilename_base, slice0.
  destruct (firstn 32 _) eqn:E; simpl or_else.
  - vm_compute. lia.
  - rewrite <- E. apply firstn_le_length.
Qed.

Lemma filter_none (p : N -> bool) s :
  forallb (fun c => negb (p c)) s = true -> List.filter p s = [].
Proof.
  induction s as [|c s IH]; simpl; [reflexivity|].
  intros H. apply andb_prop in H as [Hc Hs].
  destruct (p c); [discriminate | auto].
Qed.

Lemma genFilename_base_image lower prompt :
  forallb (fun c => negb (is_kept c)) (lower prompt) = true ->
  genFilename_base lower prompt = str "image".
Proof.
  intros H. unfold genFilename_base.
  rewrite replace_class_filter, (filter_none _ _ H). reflexivity.
Qed.

(** ** The collision loop *)

Lemma first_counter_code idx : (if 0 <? idx then idx else 1) = first_counter idx.
Proof.
  unfold first_counter. destruct (decide (0 < idx)) as [H|H].
  - apply N.ltb_lt in H. now rewrite H.
  - apply N.ltb_nlt in H. now rewrite H.
Qed.

Lemma candidate_0 slug c : candidate slug c 0 = plain_name slug.
Proof. reflexivity. Qed.

Lemma candidate_S slug c k :
  candidate slug c (S k) = numbered_name slug (c + N.of_nat k).
Proof. reflexivity. Qed.

(** Two candidates of one sequence with different positions differ. *)
Lemma candidate_inj slug c j k : candidate slug c j = candidate slug c k -> j = k.
Proof.
  destruct j as [|j], k as [|k]; unfold candidate; intros H; [reflexivity| | |].
  - apply app_inv_head in H. vm_compute in H. discriminate H.
  - apply app_inv_head in H. vm_compute in H. discriminate H.
  - apply app_inv_head in H. apply app_inv_head in H.
    apply app_inv_tail in H. apply num_to_string_inj in H. lia.
Qed.

Lemma existsSync_true dir name : existsSync dir name = true <-> name ∈ dir.
Proof. unfold existsSync. apply bool_decide_eq_true. Qed.

Lemma existsSync_false dir name : existsSync dir name = false <-> name ∉ dir.
Proof. unfold existsSync. apply bool_decide_eq_false. Qed.

(** The loop entered at position [k] of the candidate sequence either
    leaves within [fuel] tests, at the first free candidate from [k] on, or
    finds the next [fuel] candidates taken. *)
Lemma genFilename_loop_inv dir slug c fuel : forall k,
  (exists j, (j < fuel)%nat
     /\ (candidate slug c (k + j) ∉ dir)
     /\ (forall i, (i < j)%nat -> candidate slug c (k + i) ∈ dir)
     /\ genFilename_loop fuel dir slug (candidate slug c k) (c + N.of_nat k)
        = candidate slug c (k + j)
     /\ genFilename_while dir slug (candidate slug c k) (c + N.of_nat k)
          (map (candidate slug c) (seq k (S j))) (candidate slug c (k + j)))
  \/ (forall i, (i < fuel)%nat -> candidate slug c (k + i) ∈ dir).
Proof.
  induction fuel as [|fuel IH]; intros k.
  - right. intros i Hi. lia.
  - simpl genFilename_loop.
    destruct (existsSync dir (candidate slug c k)) eqn:Hex.
    + rewrite <- candidate_S.
      replace (c + N.of_nat k + 1) with (c + N.of_nat (S k)) by lia.
      destruct (IH (S k)) as [(j & Hj & Hfree & Hbusy & Hres & Hrun) | Hall].
      * left. exists (S j).
        replace (k + S j)%nat with (S k + j)%nat by lia.
        repeat split; [lia | exact Hfree | | exact Hres |].
        -- intros [|i] Hi.
           ++ rewrite Nat.add_0_r. now apply existsSync_true.
           ++ replace (k + S i)%nat with (S k + i)%nat by lia. apply Hbusy. lia.
        -- change (seq k (S (S j))) with (k :: seq (S k) (S j)).
           rewrite map_cons. apply while_iter; [exact Hex|].
           rewrite <- candidate_S.
           replace (c + N.of_nat k + 1) with (c + N.of_nat (S k)) by lia.
           exact Hrun.
      * right. intros [|i] Hi.
        -- rewrite Nat.add_0_r. now apply existsSync_true.
        -- replace (k + S i)%nat with (S k + i)%nat by lia. apply Hall. lia.
    + left. exists 0%nat. rewrite Nat.add_0_r.
      repeat split; [lia | now apply existsSync_false | intros i Hi; lia |].
      simpl. now apply while_exit.
Qed.

(** More distinct names than the directory has entries cannot all be in it. *)
Lemma candidates_not_all_taken (dir : gset jsstring) slug c :
  ~ (forall i, (i < S (size dir))%nat -> candidate slug c i ∈ dir).
Proof.
  intros Hall.
  set (l := map (candidate slug c) (seq 0 (S (size dir)))).
  assert (Hnd : NoDup l).
  { assert (Hinj : Inj (=) (=) (candidate slug c))
      by (intros j k; apply candidate_inj).
    apply (NoDup_fmap_2 (candidate slug c)). apply NoDup_seq. }
  assert (Hsub : list_to_set l ⊆ dir).
  { intros x Hx. apply elem_of_list_to_set in Hx.
    apply list_elem_of_In, in_map_iff in Hx as (i & <- & Hi).
    apply in_seq in Hi. apply Hall. lia. }
  apply subseteq_size in Hsub.
  rewrite (size_list_to_set l Hnd) in Hsub.
  unfold l in Hsub. rewrite length_map, length_seq in Hsub. lia.
Qed.

(** The function [genFilename] computes a run of the loop of the source:
    the tests are the first candidates in order, all taken but the last,
    and there is at most one more of them than entries in the directory. *)
Lemma genFilename_runs lower prompt idx dir :
  let slug := genFilename_base lower prompt in
  let c := first_counter idx in
  exists j, (j <= size dir)%nat
    /\ genFilename lower prompt idx dir = candidate slug c j
    /\ (candidate slug c j ∉ dir)
    /\ (forall i, (i < j)%nat -> candidate slug c i ∈ dir)
    /\ genFilename_while dir slug (plain_name slug) (if 0 <? idx then idx else 1)
         (map (candidate slug c) (seq 0 (S j))) (genFilename lower prompt idx dir).
Proof.
  intros slug c. unfold genFilename. fold slug. rewrite first_counter_code. fold c.
  destruct (genFilename_loop_inv dir slug c (S (size dir)) 0)
    as [(j & Hj & Hfree & Hbusy & Hres & Hrun) | Hall].
  - rewrite candidate_0, N.add_0_r in *. simpl Nat.add in *.
    exists j. rewrite Hres. repeat split; auto. lia.
  - exfalso. exact (candidates_not_all_taken dir slug c Hall).
Qed.

(** C1.  For every prompt, every ordinal and every (finite) directory,
    [genFilename] returns the first free name of the candidate sequence
    [slug.png], [slug_c.png], [slug_{c+1}.png], ..., where [c] is the
    ordinal when it is positive and 1 otherwise: the result is a candidate,
    every candidate before it is taken, and the result is not an entry of
    the directory. *)
Theorem genFilename_first_free lower prompt idx dir :
  let slug := genFilename_base lower prompt in
  let c := first_counter idx in
  exists k,
    genFilename lower prompt idx dir = candidate slug c k
    /\ (forall j, (j < k)%nat -> candidate slug c j ∈ dir)
    /\ (genFilename lower prompt idx dir ∉ dir).
Proof.
  intros slug c.
  destruct (genFilename_runs lower prompt idx dir) as (k & _ & Hres & Hfree & Hbusy & _).
  fold slug c in Hres, Hfree, Hbusy.
  exists k. rewrite Hres. auto.
Qed.

(** C10.  The collision loop terminates: the numbered candidates carry
    the counters [c], [c+1], ..., the candidates are pairwise distinct, the
    names the loop tests are the first candidates in order, none twice,
    and the loop leaves with the result of [genFilename] after at most one
    test more than the directory has entries. *)
Theorem genFilename_terminates lower prompt idx dir :
  let slug := genFilename_base lower prompt in
  let c := first_counter idx in
  (forall j, candidate slug c (S j) = numbered_name slug (c + N.of_nat j))
  /\ (forall j k, candidate slug c j = candidate slug c k -> j = k)
  /\ exists probes,
       genFilename_while dir slug (plain_name slug) (if 0 <? idx then idx else 1)
         probes (genFilename lower prompt idx dir)
       /\ probes = map (candidate slug c) (seq 0 (length probes))
       /\ NoDup probes
       /\ (length probes <= size dir + 1)%nat.
Proof.
  intros slug c. split; [reflexivity|].
  split; [intros j k; apply candidate_inj|].
  destruct (genFilename_runs lower prompt idx dir) as (k & Hk & _ & _ & _ & Hrun).
  fold slug c in Hrun.
  exists (map (candidate slug c) (seq 0 (S k))).
  rewrite length_map, length_seq.
  repeat split; [exact Hrun | | lia].
  assert (Hinj : Inj (=) (=) (candidate slug c))
    by (intros i j; apply candidate_inj).
  apply (NoDup_fmap_2 (candidate slug c)). apply NoDup_seq.
Qed.

(** C2 (amended).  The stem is the slug of the specification: lowercase,
    drop what is outside [a-z0-9] and white space, one underscore per run
    of white space, the first 32 characters, and the literal image when
    that is empty.  It has at most 32 characters.  A prompt whose lowercase
    text has no character of [a-z0-9] and no white space gets the stem
    image, and the name image.png in a directory that has no such entry. *)
Theorem genFilename_base_slug lower prompt :
  genFilename_base lower prompt = spec_slug lower prompt
  /\ (length (genFilename_base lower prompt) <= 32)%nat
  /\ (forallb (fun c => negb (is_kept c)) (lower prompt) = true ->
      genFilename_base lower prompt = str "image"
      /\ forall idx dir, str "image.png" ∉ dir ->
           genFilename lower prompt idx dir = str "image.png").
Proof.
  split; [apply genFilename_base_spec|].
  split; [apply genFilename_base_length|].
  intros H. pose proof (genFilename_base_image lower prompt H) as E.
  split; [exact E|].
  intros idx dir Hfree. unfold genFilename. rewrite E.
  simpl genFilename_loop.
  apply existsSync_false in Hfree.
  change (plain_name (str "image")) with (str "image.png").
  now rewrite Hfree.
Qed.

Lemma genFilename_base_slug_witness :
  forallb (fun c => negb (is_kept c)) (asciiLower (str "!!!")) = true
  /\ genFilename asciiLower (str "!!!") 0 ∅ = str "image.png".
Proof.
  split; [vm_compute; reflexivity|].
  apply (proj2 (proj2 (proj2 (genFilename_base_slug asciiLower (str "!!!"))) eq_refl)).
  set_solver.
Defined.

(** C2 as stated fails: the prompt "! !" has no letter and no digit, yet
    its white space becomes an underscore, the stem is "_" and the name in
    an empty directory is "_.png". *)
Lemma blank_prompt_not_image :
  forallb (fun c => negb (is_alnum c)) (str "! !") = true
  /\ genFilename_base asciiLower (str "! !") = str "_"
  /\ genFilename asciiLower (str "! !") 0 ∅ = str "_.png"
  /\ genFilename asciiLower (str "! !") 0 ∅ <> str "image.png".
Proof. vm_compute. repeat split; discriminate. Qed.

(** ** The prompt expander *)

Lemma push_variation_suffixes b acc t :
  push_variation b acc t = acc ++ map (app b) (tag_suffixes t).
Proof.
  unfold push_variation, tag_suffixes.
  destruct (decide (t = str "lighting")); [now rewrite <- app_assoc|].
  destruct (decide (t = str "mood")); [now rewrite <- app_assoc|].
  reflexivity.
Qed.

Lemma fold_push_variation b tags : forall acc,
  fold_left (push_variation b) tags acc
  = acc ++ flat_map (fun t => map (app b) (tag_suffixes t)) tags.
Proof.
  induction tags as [|t tags IH]; intros acc; simpl.
  - now rewrite app_nil_r.
  - rewrite IH, push_variation_suffixes. now rewrite <- app_assoc.
Qed.

Lemma fold_variations tags prompts : forall acc,
  fold_left (fun acc b => fold_left (push_variation b) tags acc) prompts acc
  = acc ++ spec_vary tags prompts.
Proof.
  induction prompts as [|b prompts IH]; intros acc; simpl.
  - now rewrite app_nil_r.
  - rewrite IH, fold_push_variation. now rewrite <- app_assoc.
Qed.

Lemma apply_variations_spec tags prompts :
  tags <> [] -> apply_variations (Some tags) prompts = spec_vary tags prompts.
Proof.
  intros Hne. destruct tags as [|t tags]; [congruence|].
  unfold apply_variations. now rewrite fold_variations.
Qed.

Lemma truncate_to_count_cases (n : Z) (prompts : list jsstring) :
  (0 < n)%Z ->
  truncate_to_count (Some n) prompts
  = if (n <? Z.of_nat (length prompts))%Z then firstn (Z.to_nat n) prompts else prompts.
Proof.
  intros Hn. unfold truncate_to_count, slice_to.
  destruct (Z.eqb_spec n 0); [lia|]. simpl.
  destruct (Z.ltb_spec n 0); [lia|]. reflexivity.
Qed.

(** C3.  With a count above 1, when the list after the style and
    variation steps has exactly one element, the prompts submitted are
    [count] copies of the base prompt itself, whatever suffix that one
    element carried. *)
Theorem single_prompt_replicated base opts (n : Z) :
  count opts = Some n ->
  (1 < n)%Z ->
  length (styled_and_varied base opts) = 1%nat ->
  generate_prompts base opts = repeat base (Z.to_nat n).
Proof.
  intros Hc Hn Hlen. unfold generate_prompts, replicate_single.
  rewrite Hc, Hlen.
  destruct (Z.eqb_spec n 0); [lia|].
  destruct (Z.ltb_spec 1 n); [|lia]. cbn [negb andb Nat.eqb].
  rewrite truncate_to_count_cases by lia.
  rewrite repeat_length, Z2Nat.id by lia.
  now rewrite Z.ltb_irrefl.
Qed.

Lemma single_prompt_replicated_witness :
  let opts := {| count := Some 3%Z; styles := Some [str "modern"];
                 variations := Some [str "angle"]; outputDir := str "out" |} in
  count opts = Some 3%Z
  /\ (1 < 3)%Z
  /\ styled_and_varied (str "logo") opts = [str "logo, modern style, angle"]
  /\ generate_prompts (str "logo") opts = [str "logo"; str "logo"; str "logo"].
Proof.
  intros opts.
  split; [reflexivity|]. split; [lia|]. split; [vm_compute; reflexivity|].
  apply (single_prompt_replicated (str "logo") opts 3%Z);
    [reflexivity | lia | vm_compute; reflexivity].
Defined.

(** C4.  A non-empty variation list replaces every prompt, in order, by
    its expansions for the tags in list order: two prompts for lighting
    (dramatic, then soft), two for mood (cheerful, then dramatic), one for
    any other tag.  With the tags mood and x a single base prompt gives
    three prompts in that order. *)
Theorem variations_expand tags prompts :
  tags <> [] ->
  apply_variations (Some tags) prompts = spec_vary tags prompts
  /\ apply_variations (Some tags) prompts
     = flat_map (fun b => flat_map (fun t => apply_variations (Some [t]) [b]) tags) prompts
  /\ (forall b, apply_variations (Some [str "lighting"]) [b]
                = [b ++ str ", dramatic lighting"; b ++ str ", soft lighting"])
  /\ (forall b, apply_variations (Some [str "mood"]) [b]
                = [b ++ str ", cheerful mood"; b ++ str ", dramatic mood"])
  /\ (forall b t, t <> str "lighting" -> t <> str "mood" ->
                  apply_variations (Some [t]) [b] = [b ++ str ", " ++ t])
  /\ (forall base out,
        generate_prompts base
          {| count := None; styles := None;
             variations := Some [str "mood"; str "x"]; outputDir := out |}
        = [base ++ str ", cheerful mood"; base ++ str ", dramatic mood";
           base ++ str ", x"]).
Proof.
  intros Hne. split; [now apply apply_variations_spec|].
  split.
  - rewrite apply_variations_spec by assumption. unfold spec_vary.
    apply flat_map_ext. intros b. apply flat_map_ext. intros t.
    unfold apply_variations. simpl. rewrite push_variation_suffixes. reflexivity.
  - repeat split.
    + intros b t H1 H2. unfold apply_variations. simpl. unfold push_variation.
      destruct (decide (t = str "lighting")); [contradiction|].
      destruct (decide (t = str "mood")); [contradiction|]. reflexivity.
Qed.

Lemma variations_expand_witness :
  [str "lighting"; str "angle"] <> []
  /\ apply_variations (Some [str "lighting"; str "angle"]) [str "cat"; str "dog"]
     = [str "cat, dramatic lighting"; str "cat, soft lighting"; str "cat, angle";
        str "dog, dramatic lighting"; str "dog, soft lighting"; str "dog, angle"].
Proof.
  split; [discriminate|].
  rewrite (proj1 (variations_expand [str "lighting"; str "angle"] [str "cat"; str "dog"]
                    ltac:(discriminate))).
  vm_compute. reflexivity.
Defined.

Lemma styled_longer base s : styled base s <> base.
Proof.
  unfold styled. intros H. apply (f_equal (@length N)) in H.
  rewrite !length_app in H. change (length (str ", ")) with 2%nat in H. lia.
Qed.

(** C5.  With a non-empty style list, no variations and no count, the
    prompts are one per style, in order, the i-th being
    [`${base}, ${S[i]} style`]; the plain base prompt is not among them. *)
Theorem styles_replace_base base (S : list jsstring) vars out :
  S <> [] ->
  vars = None \/ vars = Some [] ->
  let prompts :=
    generate_prompts base
      {| count := None; styles := Some S; variations := vars; outputDir := out |} in
  prompts = map (fun s => base ++ str ", " ++ s ++ str " style") S
  /\ length prompts = length S
  /\ (forall i s, S !! i = Some s ->
        prompts !! i = Some (base ++ str ", " ++ s ++ str " style"))
  /\ (base ∉ prompts).
Proof.
  intros Hne Hvars prompts.
  assert (E : prompts = map (styled base) S).
  { subst prompts. unfold generate_prompts, styled_and_varied. simpl.
    destruct S as [|s S]; [congruence|].
    destruct Hvars as [-> | ->]; reflexivity. }
  rewrite E. split; [reflexivity|].
  split; [apply length_map|].
  split.
  - intros i s Hi. rewrite list_lookup_fmap, Hi. reflexivity.
  - intros Hin. apply list_elem_of_In, in_map_iff in Hin as (s & Hs & _).
    exact (styled_longer base s Hs).
Qed.

Lemma styles_replace_base_witness :
  [str "modern"; str "minimal"] <> []
  /\ generate_prompts (str "logo")
       {| count := None; styles := Some [str "modern"; str "minimal"];
          variations := None; outputDir := str "out" |}
     = [str "logo, modern style"; str "logo, minimal style"].
Proof.
  split; [discriminate|].
  exact (proj1 (styles_replace_base (str "logo") [str "modern"; str "minimal"] None
                  (str "out") ltac:(discriminate) (or_introl eq_refl))).
Defined.

(** C6.  With a positive count [n], a prompt list with more than [n]
    elements is cut to its first [n] elements, in order; a list with at
    most [n] elements is left as it is, so this step never makes the list
    longer.  It is the last step of the expansion. *)
Theorem truncate_first_count (n : Z) (prompts : list jsstring) :
  (0 < n)%Z ->
  ((n < Z.of_nat (length prompts))%Z ->
     truncate_to_count (Some n) prompts = firstn (Z.to_nat n) prompts
     /\ length (truncate_to_count (Some n) prompts) = Z.to_nat n)
  /\ ((Z.of_nat (length prompts) <= n)%Z -> truncate_to_count (Some n) prompts = prompts)
  /\ (length (truncate_to_count (Some n) prompts) <= length prompts)%nat
  /\ (forall base opts,
        count opts = Some n ->
        generate_prompts base opts
        = truncate_to_count (Some n)
            (replicate_single base (Some n) (styled_and_varied base opts))).
Proof.
  intros Hn. rewrite truncate_to_count_cases by assumption.
  repeat split.
  - destruct (Z.ltb_spec n (Z.of_nat (length prompts))); [reflexivity | lia].
  - destruct (Z.ltb_spec n (Z.of_nat (length prompts))); [|lia].
    rewrite length_firstn. lia.
  - intros Hle. destruct (Z.ltb_spec n (Z.of_nat (length prompts))); [lia | reflexivity].
  - destruct (Z.ltb_spec n (Z.of_nat (length prompts))); [|lia].
    rewrite length_firstn. lia.
  - intros base opts Hc. unfold generate_prompts. now rewrite Hc.
Qed.

Lemma truncate_first_count_witness :
  let opts := {| count := Some 2%Z;
                 styles := Some [str "a"; str "b"; str "c"; str "d"; str "e"];
                 variations := None; outputDir := str "out" |} in
  (0 < 2)%Z
  /\ length (styled_and_varied (str "cat") opts) = 5%nat
  /\ generate_prompts (str "cat") opts = [str "cat, a style"; str "cat, b style"].
Proof.
  intros opts. split; [lia|]. split; [reflexivity|].
  destruct (truncate_first_count 2%Z
              (replicate_single (str "cat") (Some 2%Z) (styled_and_varied (str "cat") opts))
              ltac:(lia))
    as (Hcut & _ & _ & Hlast).
  rewrite (Hlast (str "cat") opts eq_refl).
  rewrite (proj1 (Hcut ltac:(vm_compute; reflexivity))).
  vm_compute. reflexivity.
Defined.

(** ** Credentials *)

Lemma api_key_lookup_first env :
  match first_non_empty [env !! str "NANOBANANA_GEMINI_API_KEY";
                         env !! str "GEMINI_API_KEY";
                         env !! str "GOOGLE_API_KEY"] with
  | Some k => exists c r, k = c :: r /\ api_key_lookup env = Some k
  | None => api_key_lookup env = None \/ api_key_lookup env = Some []
  end.
Proof.
  unfold api_key_lookup, first_non_empty, or_undefined.
  destruct (env !! str "NANOBANANA_GEMINI_API_KEY") as [[|c1 k1]|];
    destruct (env !! str "GEMINI_API_KEY") as [[|c2 k2]|];
    destruct (env !! str "GOOGLE_API_KEY") as [[|c3 k3]|];
    eauto.
Qed.

(** C8 (amended).  The key is the first non-empty value among the
    override variable NANOBANANA_GEMINI_API_KEY, then GEMINI_API_KEY, then
    GOOGLE_API_KEY.  When none is set [getApiKey] fails; [generate] then
    fails with the world as it was (no request is sent), and the command
    prints one error line and leaves with status 1. *)
Theorem getApiKey_first_non_empty env :
  let found :=
    first_non_empty [env !! str "NANOBANANA_GEMINI_API_KEY";
                     env !! str "GEMINI_API_KEY";
                     env !! str "GOOGLE_API_KEY"] in
  (forall k, found = Some k ->
     getApiKey env = Normal k /\ forall w, getApiKey_exit env w = (w, Normal k))
  /\ (found = None ->
      getApiKey env = Throw no_key_message
      /\ (forall w, getApiKey_exit env w = (print (Err no_key_help) w, Exit 1%Z))
      /\ (forall lower api prompt opts w,
            generate lower api env prompt opts w = (w, Throw no_key_message))
      /\ (forall lower api out args w, exists line,
            main_generate lower api env out args w = (print (Err line) w, 1%Z))).
Proof.
  intros found. pose proof (api_key_lookup_first env) as H. fold found in H.
  split.
  - intros k Hk. rewrite Hk in H. destruct H as (c & r & -> & E).
    unfold getApiKey, getApiKey_exit. rewrite E. auto.
  - intros Hnone. rewrite Hnone in H.
    assert (Hget : getApiKey env = Throw no_key_message).
    { unfold getApiKey. destruct H as [-> | ->]; reflexivity. }
    assert (Hgen : forall lower api prompt opts w,
               generate lower api env prompt opts w = (w, Throw no_key_message)).
    { intros. unfold generate. now rewrite Hget. }
    repeat split; [exact Hget | | exact Hgen |].
    + intros w. unfold getApiKey_exit. destruct H as [-> | ->]; reflexivity.
    + intros lower api out args w. unfold main_generate.
      destruct (join (str " ") (fst (parseArgs args))) as [|c p]; [eauto|].
      rewrite Hgen. eauto.
Qed.

Lemma getApiKey_first_non_empty_witness :
  getApiKey {[ str "GOOGLE_API_KEY" := str "g" ]} = Normal (str "g")
  /\ generate asciiLower (fun _ _ => Resolved []) ∅ (str "cat")
       {| count := None; styles := None; variations := None; outputDir := str "out" |}
       {| disk := ∅; console := []; requests := [] |}
     = ({| disk := ∅; console := []; requests := [] |}, Throw no_key_message).
Proof.
  split.
  - destruct (getApiKey_first_non_empty
                (({[ str "GOOGLE_API_KEY" := str "g" ]}) : gmap jsstring jsstring))
      as [Hfound _].
    apply Hfound. vm_compute. reflexivity.
  - destruct (getApiKey_first_non_empty (∅ : gmap jsstring jsstring)) as [_ Hnone].
    apply Hnone. vm_compute. reflexivity.
Defined.

(** C8 as stated fails: the override variable is read first, not last.
    With both it and GEMINI_API_KEY set, the stated order picks the
    value of GEMINI_API_KEY and the code returns the override. *)
Lemma override_key_wins :
  let env : gmap jsstring jsstring :=
    <[str "NANOBANANA_GEMINI_API_KEY" := str "override"]>
      {[ str "GEMINI_API_KEY" := str "gemini" ]} in
  first_non_empty [env !! str "GEMINI_API_KEY"; env !! str "GOOGLE_API_KEY";
                   env !! str "NANOBANANA_GEMINI_API_KEY"] = Some (str "gemini")
  /\ getApiKey env = Normal (str "override")
  /\ getApiKey env <> Normal (str "gemini").
Proof. vm_compute. repeat split; discriminate. Qed.

(** ** Batches *)

Section Batch.

Variable lower : jsstring -> jsstring.
Variable api : nat -> jsstring -> response.
Variable out : jsstring.

Lemma genFilename_fresh prompt idx dir : genFilename lower prompt idx dir ∉ dir.
Proof.
  destruct (genFilename_runs lower prompt idx dir) as (k & _ & Hres & Hfree & _).
  now rewrite Hres.
Qed.

Lemma generate_loop_app pre : forall post i st,
  generate_loop lower api out i (pre ++ post) st
  = generate_loop lower api out (i + length pre) post (generate_loop lower api out i pre st).
Proof.
  induction pre as [|p pre IH]; intros post i st; simpl.
  - now rewrite Nat.add_0_r.
  - rewrite IH. f_equal. lia.
Qed.

(** What a failed item does: the request is sent, an error is printed
    when the request was rejected, and nothing else changes. *)
Lemma generate_item_failed i p st :
  delivers (api i p) = false ->
  generate_item lower api out i p st
  = (match api i p with
     | Rejected msg => print (Err (str "  Error: " ++ msg)) (send p (fst st))
     | Resolved _ => send p (fst st)
     end, snd st).
Proof.
  unfold delivers, generate_item.
  destruct (api i p) as [msg|parts]; [reflexivity|].
  destruct (first_image parts); [discriminate | reflexivity].
Qed.

Lemma generate_item_requests i p st :
  requests (fst (generate_item lower api out i p st)) = requests (fst st) ++ [p].
Proof.
  unfold generate_item.
  destruct (api i p) as [msg|parts]; [reflexivity|].
  destruct (first_image parts); reflexivity.
Qed.

Lemma generate_item_disk i p st name data :
  disk (fst st) !! name = Some data ->
  disk (fst (generate_item lower api out i p st)) !! name = Some data.
Proof.
  intros Hin. unfold generate_item.
  destruct (api i p) as [msg|parts]; [exact Hin|].
  destruct (first_image parts) as [b64|]; [|exact Hin].
  simpl. rewrite lookup_insert_ne; [exact Hin|].
  intros Heq.
  apply (genFilename_fresh p (N.of_nat i) (dom (disk (fst st)))).
  rewrite Heq. apply elem_of_dom. eauto.
Qed.

Lemma generate_item_files i p st :
  length (snd (generate_item lower api out i p st))
  = (length (snd st) + if delivers (api i p) then 1 else 0)%nat.
Proof.
  unfold generate_item, delivers.
  destruct (api i p) as [msg|parts]; simpl; [lia|].
  destruct (first_image parts); simpl; [|lia].
  rewrite length_app. reflexivity.
Qed.

Lemma generate_item_on_disk i p st :
  Forall (on_disk out (fst st)) (snd st) ->
  Forall (on_disk out (fst (generate_item lower api out i p st)))
         (snd (generate_item lower api out i p st)).
Proof.
  intros Hall. unfold generate_item.
  destruct (api i p) as [msg|parts]; [exact Hall|].
  destruct (first_image parts) as [b64|]; [|exact Hall].
  cbn [fst snd saveImage]. apply Forall_app. split.
  - eapply Forall_impl; [exact Hall|].
    intros f (name & -> & Hsome). exists name. split; [reflexivity|].
    unfold print, send. cbn [disk]. apply lookup_insert_is_Some.
    destruct (decide (genFilename lower p (N.of_nat i) (dom (disk (fst st))) = name));
      auto.
  - constructor; [|constructor].
    eexists. split; [reflexivity|].
    unfold print, send. cbn [disk]. rewrite lookup_insert_eq. eauto.
Qed.

Lemma generate_loop_on_disk prompts : forall i st,
  Forall (on_disk out (fst st)) (snd st) ->
  Forall (on_disk out (fst (generate_loop lower api out i prompts st)))
         (snd (generate_loop lower api out i prompts st)).
Proof.
  induction prompts as [|p prompts IH]; intros i st Hall; simpl; [exact Hall|].
  apply IH. now apply generate_item_on_disk.
Qed.

Lemma generate_loop_requests prompts : forall i st,
  requests (fst (generate_loop lower api out i prompts st)) = requests (fst st) ++ prompts.
Proof.
  induction prompts as [|p prompts IH]; intros i st; simpl.
  - now rewrite app_nil_r.
  - rewrite IH, generate_item_requests. now rewrite <- app_assoc.
Qed.

Lemma generate_loop_disk prompts name data : forall i st,
  disk (fst st) !! name = Some data ->
  disk (fst (generate_loop lower api out i prompts st)) !! name = Some data.
Proof.
  induction prompts as [|p prompts IH]; intros i st Hin; simpl; [exact Hin|].
  apply IH. now apply generate_item_disk.
Qed.

Lemma generate_loop_files prompts : forall i st,
  length (snd (generate_loop lower api out i prompts st))
  = (length (snd st) + delivered api i prompts)%nat.
Proof.
  induction prompts as [|p prompts IH]; intros i st; simpl; [lia|].
  rewrite IH, generate_item_files. lia.
Qed.

End Batch.

(** With a key in the environment [generate] returns normally, whatever
    the responses: every expanded prompt has been requested and the result
    has one file per delivering prompt. *)
Lemma generate_returns lower api env k prompt opts w :
  getApiKey env = Normal k ->
  exists files,
    snd (generate lower api env prompt opts w) = Normal files
    /\ requests (fst (generate lower api env prompt opts w))
       = requests w ++ generate_prompts prompt opts
    /\ length files = delivered api 0 (generate_prompts prompt opts).
Proof.
  intros Hk. unfold generate. rewrite Hk. simpl.
  eexists. split; [reflexivity|].
  rewrite generate_loop_requests, generate_loop_files. auto.
Qed.

(** C7 (amended).  A prompt that fails, by a rejected request or by a
    response without image data, does not stop the batch: the loop goes on
    with the prompts after it; the failed item writes nothing and adds no
    entry to the file list; a rejected request prints one error line and a
    response without image data prints nothing.  Every prompt of the batch
    is requested, in order; the entries written for earlier items keep
    their contents; the files of the result are entries of the directory;
    the file list grows by one per delivering prompt; and with a key in the
    environment [generate] returns normally with that list. *)
Theorem failed_item_skipped lower api out i pre p post st :
  let k := (i + length pre)%nat in
  let st1 := generate_loop lower api out i pre st in
  let st2 := generate_item lower api out k p st1 in
  let final := generate_loop lower api out i (pre ++ p :: post) st in
  delivers (api k p) = false ->
  final = generate_loop lower api out (S k) post st2
  /\ disk (fst st2) = disk (fst st1)
  /\ snd st2 = snd st1
  /\ console (fst st2)
     = console (fst st1) ++ match api k p with
                            | Rejected msg => [Err (str "  Error: " ++ msg)]
                            | Resolved _ => []
                            end
  /\ requests (fst final) = requests (fst st) ++ pre ++ p :: post
  /\ (forall name data,
        disk (fst st1) !! name = Some data -> disk (fst final) !! name = Some data)
  /\ (Forall (on_disk out (fst st)) (snd st) ->
      Forall (on_disk out (fst final)) (snd final))
  /\ length (snd final)
     = (length (snd st) + delivered api i pre + delivered api (S k) post)%nat
  /\ (forall env key prompt opts w,
        getApiKey env = Normal key ->
        exists files,
          snd (generate lower api env prompt opts w) = Normal files
          /\ requests (fst (generate lower api env prompt opts w))
             = requests w ++ generate_prompts prompt opts
          /\ length files = delivered api 0 (generate_prompts prompt opts)).
Proof.
  intros k st1 st2 final Hfail.
  assert (Hfinal : final = generate_loop lower api out (S k) post st2).
  { subst final st2 st1 k. now rewrite generate_loop_app. }
  assert (Hst2 : st2 = (match api k p with
                        | Rejected msg => print (Err (str "  Error: " ++ msg)) (send p (fst st1))
                        | Resolved _ => send p (fst st1)
                        end, snd st1)).
  { subst st2. now apply generate_item_failed. }
  split; [exact Hfinal|].
  split; [rewrite Hst2; destruct (api k p); reflexivity|].
  split; [rewrite Hst2; reflexivity|].
  split.
  { rewrite Hst2. destruct (api k p); simpl; [reflexivity | now rewrite app_nil_r]. }
  split; [apply generate_loop_requests|].
  split.
  { intros name data Hin. rewrite Hfinal. apply generate_loop_disk.
    rewrite Hst2. destruct (api k p); exact Hin. }
  split; [apply generate_loop_on_disk|].
  split; [|intros env key prompt opts w; apply generate_returns].
  rewrite Hfinal, generate_loop_files.
  subst st2. rewrite generate_item_files, Hfail.
  subst st1. rewrite generate_loop_files. lia.
Qed.

Lemma failed_item_skipped_witness :
  let api := fun (i : nat) (_ : jsstring) =>
    if (i =? 2)%nat then Rejected (str "quota")
    else Resolved [ {| inlineData_data := Some (str "QUJD"); text := None |} ] in
  let w0 := {| disk := ∅; console := []; requests := [] |} in
  let final := generate_loop asciiLower api (str "out") 0 (repeat (str "cat") 5) (w0, []) in
  delivers (api 2%nat (str "cat")) = false
  /\ length (snd final) = 4%nat
  /\ requests (fst final) = repeat (str "cat") 5.
Proof.
  intros api w0 final.
  destruct (failed_item_skipped asciiLower api (str "out") 0
              [str "cat"; str "cat"] (str "cat") [str "cat"; str "cat"] (w0, [])
              eq_refl)
    as (_ & _ & _ & _ & Hreq & _ & _ & Hlen & _).
  split; [reflexivity|].
  split; [exact Hlen | exact Hreq].
Defined.

(** C7 as stated fails for a response without image data: the item is
    skipped, but no error is printed.  One prompt whose response has only
    a short text part leaves the announcement as the only console line. *)
Lemma no_image_not_logged :
  let api := fun (_ : nat) (_ : jsstring) =>
    Resolved [ {| inlineData_data := None; text := Some (str "no image") |} ] in
  let env : gmap jsstring jsstring := {[ str "GEMINI_API_KEY" := str "k" ]} in
  let w0 := {| disk := ∅; console := []; requests := [] |} in
  let r := generate asciiLower api env (str "cat")
             {| count := None; styles := None; variations := None;
                outputDir := str "out" |} w0 in
  snd r = Normal []
  /\ requests (fst r) = [str "cat"]
  /\ console (fst r) = [Log (str "Generating 1 image(s)...")]
  /\ (forall line, Err line ∉ console (fst r)).
Proof.
  vm_compute. repeat split.
  intros line H. apply list_elem_of_In in H. simpl in H.
  destruct H as [H|[]]. discriminate H.
Qed.

(** ** The count flag *)

(** C9.  The count flag is passed to [generate] as [parseInt] reads it,
    with no check against the range 1-8 of the help text: the command
    [generate cat --count=20] has count 20 and sends 20 requests. *)
Lemma count_flag_unchecked :
  let args := [str "cat"; str "--count=20"] in
  let env : gmap jsstring jsstring := {[ str "GEMINI_API_KEY" := str "k" ]} in
  let w0 := {| disk := ∅; console := []; requests := [] |} in
  let opts := generate_options (snd (parseArgs args)) (str "out") in
  count opts = Some 20%Z
  /\ length (generate_prompts (str "cat") opts) = 20%nat
  /\ length (requests (fst (main_generate asciiLower (fun _ _ => Resolved []) env
                              (str "out") args w0))) = 20%nat.
Proof. vm_compute. repeat split. Qed.

(** ** The unit tests of the repository, run on the model *)

Example test_generates_filename :
  genFilename asciiLower (str "a beautiful sunset") 0 ∅ = str "a_beautiful_sunset.png".
Proof. vm_compute. reflexivity. Qed.

Example test_removes_special_characters :
  genFilename asciiLower (str "hello! @world# $test") 0 ∅ = str "hello_world_test.png".
Proof. vm_compute. reflexivity. Qed.

Example test_truncates_long_prompts :
  genFilename asciiLower (repeat 97 100) 0 ∅ = repeat 97 32 ++ str ".png".
Proof. vm_compute. reflexivity. Qed.

Example test_handles_empty_prompt :
  genFilename asciiLower [] 0 ∅ = str "image.png".
Proof. vm_compute. reflexivity. Qed.

Example test_increments_if_exists :
  genFilename asciiLower (str "test") 0 {[ str "test.png" ]} = str "test_1.png".
Proof. vm_compute. reflexivity. Qed.

Example test_uses_index :
  genFilename asciiLower (str "test") 3 ∅ = str "test.png"
  /\ genFilename asciiLower (str "test") 3 {[ str "test.png" ]} = str "test_3.png".
Proof. vm_compute. split; reflexivity. Qed.

Example test_third_allocation :
  genFilename asciiLower (str "test") 0 ({[ str "test.png" ]} ∪ {[ str "test_1.png" ]})
  = str "test_2.png".
Proof. vm_compute. reflexivity. Qed.

Example test_parses_mixed_arguments :
  parseArgs [str "generate"; str "a cat"; str "--count=2"; str "-p"]
  = ([str "generate"; str "a cat"],
     <[str "p" := str "true"]> (<[str "count" := str "2"]> ∅)).
Proof. vm_compute. reflexivity. Qed.

Example test_isBase64 :
  isBase64 [] = false
  /\ isBase64 (str "SGVsbG8=") = false
  /\ isBase64 (repeat 97 2000 ++ str "!!!") = false
  /\ isBase64 (repeat 65 2000) = true
  /\ isBase64 (repeat 65 1998 ++ str "==") = true.
Proof. vm_compute. repeat split. Qed.

Example test_plain_prompt base out :
  generate_prompts base
    {| count := None; styles := None; variations := None; outputDir := out |}
  = [base].
Proof. reflexivity. Qed.

Example test_count_copies base out :
  generate_prompts base
    {| count := Some 4%Z; styles := Some []; variations := Some [];
       outputDir := out |}
  = [base; base; base; base].
Proof. reflexivity. Qed.

(** * Further properties of the library *)

(** ** [isBase64] and the parts of a response *)

Lemma drop_while_app_stop (p : N -> bool) body rest :
  forallb p body = true ->
  match rest with [] => True | c :: _ => p c = false end ->
  drop_while p (body ++ rest) = rest.
Proof.
  intros Hbody Hrest. induction body as [|c body IH]; simpl in *.
  - destruct rest as [|c r]; [reflexivity|]. simpl. now rewrite Hrest.
  - apply andb_prop in Hbody as [Hc Hb]. rewrite Hc. auto.
Qed.

Lemma drop_while_split (p : N -> bool) s :
  exists body, s = body ++ drop_while p s /\ forallb p body = true.
Proof.
  induction s as [|c s (body & E & Hb)]; [exists []; auto|].
  simpl. destruct (p c) eqn:Hc.
  - exists (c :: body). simpl. rewrite Hc, Hb. split; [now f_equal | reflexivity].
  - exists []. auto.
Qed.

(** X1.  [isBase64] accepts exactly the strings of more than 1000 code
    units that are a run of characters of [A-Za-z0-9+/] followed by no, one
    or two [=]; it looks at the shape only, not at the length modulo 4. *)
Theorem isBase64_shape d :
  isBase64 d = true <->
  (1000 < length d)%nat
  /\ exists body pad,
       d = body ++ pad
       /\ forallb is_base64_char body = true
       /\ (pad = [] \/ pad = [61] \/ pad = [61; 61]).
Proof.
  split.
  - intros H. destruct d as [|c d]; [discriminate|].
    unfold isBase64 in H. apply andb_prop in H as [Hlen Hshape].
    split; [now apply Nat.ltb_lt in Hlen|].
    unfold base64_shape in Hshape.
    destruct (drop_while_split is_base64_char (c :: d)) as (body & E & Hb).
    exists body, (drop_while is_base64_char (c :: d)).
    split; [exact E|]. split; [exact Hb|].
    destruct (drop_while is_base64_char (c :: d)) as [|x [|y [|z r]]]; auto.
    + destruct x as [|x]; [discriminate|].
      destruct (decide (x = 61%positive)) as [->|Hx]; auto.
      exfalso. revert Hshape. clear -Hx.
      do 6 (destruct x as [x|x|]; try discriminate). congruence.
    + destruct (decide (x = 61)) as [->|Hx], (decide (y = 61)) as [->|Hy]; auto;
        exfalso; revert Hshape.
      * clear -Hy. destruct y as [|y]; [discriminate|].
        do 6 (destruct y as [y|y|]; try discriminate). congruence.
      * clear -Hx. destruct x as [|x]; [discriminate|].
        do 6 (destruct x as [x|x|]; try discriminate). congruence.
      * clear -Hx. destruct x as [|x]; [discriminate|].
        do 6 (destruct x as [x|x|]; try discriminate). congruence.
    + exfalso. revert Hshape. clear.
      destruct x as [|x]; [discriminate|].
      do 6 (destruct x as [x|x|]; try discriminate).
      destruct y as [|y]; [discriminate|].
      do 6 (destruct y as [y|y|]; try discriminate).
  - intros (Hlen & body & pad & -> & Hb & Hpad).
    assert (E : isBase64 (body ++ pad)
                = (1000 <? length (body ++ pad))%nat && base64_shape (body ++ pad)).
    { destruct (body ++ pad); [simpl in Hlen; lia | reflexivity]. }
    rewrite E. apply Nat.ltb_lt in Hlen. rewrite Hlen. cbn [andb].
    unfold base64_shape. rewrite drop_while_app_stop; [|exact Hb|].
    + destruct Hpad as [-> | [-> | ->]]; reflexivity.
    + destruct Hpad as [-> | [-> | ->]]; simpl; auto.
Qed.

Lemma isBase64_long d : isBase64 d = true -> (1000 < length d)%nat.
Proof.
  destruct d as [|c d]; [discriminate|].
  unfold isBase64. intros H. apply andb_prop in H as [H _]. now apply Nat.ltb_lt in H.
Qed.

Lemma part_b64_source p b64 :
  part_b64 p = Some b64 ->
  b64 <> []
  /\ (inlineData_data p = Some b64
      \/ (text p = Some b64 /\ isBase64 b64 = true
          /\ (inlineData_data p = None \/ inlineData_data p = Some []))).
Proof.
  unfold part_b64.
  destruct (inlineData_data p) as [[|c d]|].
  - destruct (text p) as [[|c t]|]; try discriminate.
    destruct (isBase64 (c :: t)) eqn:E; [|discriminate].
    intros [= <-]. split; [discriminate|]. right. auto.
  - intros [= <-]. split; [discriminate|]. now left.
  - destruct (text p) as [[|c t]|]; try discriminate.
    destruct (isBase64 (c :: t)) eqn:E; [|discriminate].
    intros [= <-]. split; [discriminate|]. right. auto.
Qed.


(** ** [parseArgs] and [parseInt] *)

Lemma parseArgs_step_positional acc a :
  fst (parseArgs_step acc a) = fst acc ++ (if is_positional a then [a] else []).
Proof.
  unfold parseArgs_step, is_positional.
  destruct (starts_with (str "--") a).
  - simpl. rewrite app_nil_r. destruct (split_on 61 (skipn 2 a)) as [|k [|v r]]; reflexivity.
  - destruct (starts_with (str "-") a && (length a =? 2)%nat); simpl;
      [now rewrite app_nil_r | reflexivity].
Qed.

Lemma parseArgs_fold_positional args : forall acc,
  fst (fold_left parseArgs_step args acc) = fst acc ++ List.filter is_positional args.
Proof.
  induction args as [|a args IH]; intros acc; simpl; [now rewrite app_nil_r|].
  rewrite IH, parseArgs_step_positional.
  destruct (is_positional a); simpl; [now rewrite <- app_assoc | now rewrite app_nil_r].
Qed.

(** X3.  The positional arguments of [parseArgs] are the arguments that
    are neither [--...] nor a dash with one character, in their order; a
    lone dash and a dash with several characters are positional. *)
Theorem parseArgs_positional args :
  fst (parseArgs args) = List.filter is_positional args
  /\ is_positional (str "-") = true
  /\ (forall c d r, c <> 45 -> is_positional (45 :: c :: d :: r) = true).
Proof.
  split; [apply (parseArgs_fold_positional args ([], ∅))|].
  split; [reflexivity|].
  intros c d r Hc. unfold is_positional, starts_with.
  rewrite bool_decide_eq_false_2; [reflexivity|].
  simpl. intros [= E]. apply Hc. exact E.
Qed.

Lemma or_else_nonempty v d : d <> [] -> or_else v d <> [].
Proof. destruct v; simpl; [auto | discriminate]. Qed.

Lemma parseArgs_step_values acc a :
  (forall k v, snd acc !! k = Some v -> v <> []) ->
  forall k v, snd (parseArgs_step acc a) !! k = Some v -> v <> [].
Proof.
  intros Hacc k v. unfold parseArgs_step.
  assert (Hins : forall (k' x : jsstring) (m : gmap jsstring jsstring),
             x <> [] -> (forall k v, m !! k = Some v -> v <> []) ->
             (<[k' := x]> m) !! k = Some v -> v <> []).
  { intros k' x m Hx Hm. destruct (decide (k' = k)) as [->|Hne].
    - rewrite lookup_insert_eq. now intros [= <-].
    - rewrite lookup_insert_ne by assumption. apply Hm. }
  destruct (starts_with (str "--") a).
  - destruct (split_on 61 (skipn 2 a)) as [|k' [|v' r]]; simpl.
    + apply Hacc.
    + apply Hins; [discriminate | exact Hacc].
    + apply Hins; [apply or_else_nonempty; discriminate | exact Hacc].
  - destruct (starts_with (str "-") a && (length a =? 2)%nat); simpl.
    + apply Hins; [discriminate | exact Hacc].
    + apply Hacc.
Qed.

(** X4.  No flag of [parseArgs] has an empty value: a flag without a
    value, or with an empty one, has the value true.  A flag that is
    present is therefore always truthy in the tests of [main]. *)
Theorem parseArgs_values_nonempty args k v :
  snd (parseArgs args) !! k = Some v -> v <> [].
Proof.
  unfold parseArgs.
  assert (H : forall acc, (forall k v, snd acc !! k = Some v -> v <> []) ->
                forall k v, snd (fold_left parseArgs_step args acc) !! k = Some v -> v <> []).
  { induction args as [|a args IH]; intros acc Hacc; simpl; [exact Hacc|].
    apply IH. now apply parseArgs_step_values. }
  apply H. intros k' v'. simpl. rewrite lookup_empty. discriminate.
Qed.

Lemma parseArgs_values_nonempty_witness :
  snd (parseArgs [str "--preview"; str "--count="]) !! str "count" = Some (str "true")
  /\ str "true" <> [].
Proof.
  split; [vm_compute; reflexivity|].
  apply (parseArgs_values_nonempty [str "--preview"; str "--count="] (str "count")).
  vm_compute. reflexivity.
Defined.

Lemma split_on_no_sep sep s : sep ∉ s -> split_on sep s = [s].
Proof.
  induction s as [|c s IH]; intros Hs; simpl; [reflexivity|].
  destruct (N.eqb_spec c sep) as [->|Hc]; [exfalso; apply Hs; constructor|].
  rewrite IH; [reflexivity|]. intros Hin. apply Hs. now constructor.
Qed.

Lemma split_on_first sep k v :
  sep ∉ k -> split_on sep (k ++ sep :: v) = k :: split_on sep v.
Proof.
  induction k as [|c k IH]; intros Hk; simpl.
  - now rewrite N.eqb_refl.
  - destruct (N.eqb_spec c sep) as [->|Hc]; [exfalso; apply Hk; constructor|].
    rewrite IH; [reflexivity|]. intros Hin. apply Hk. now constructor.
Qed.

Lemma split_on_nonempty sep s : split_on sep s <> [].
Proof.
  destruct s as [|c s]; simpl; [discriminate|].
  destruct (c =? sep); [discriminate|].
  destruct (split_on sep s); discriminate.
Qed.

Lemma parseArgs_step_long acc k v :
  61 ∉ k ->
  parseArgs_step acc (str "--" ++ k ++ 61 :: v)
  = (fst acc, <[k := or_else (hd [] (split_on 61 v)) (str "true")]> (snd acc)).
Proof.
  intros Hk. unfold parseArgs_step.
  change (starts_with (str "--") (str "--" ++ k ++ 61 :: v)) with true.
  change (skipn 2 (str "--" ++ k ++ 61 :: v)) with (k ++ 61 :: v).
  cbv iota. rewrite split_on_first by assumption.
  pose proof (split_on_nonempty 61 v) as Hne.
  destruct (split_on 61 v) as [|h t]; [congruence | reflexivity].
Qed.



Lemma str_cons c s : str (String c s) = N_of_ascii c :: str s.
Proof. reflexivity. Qed.

Lemma read_digits_stop rest acc : ends_numeral rest -> read_digits 10 acc rest = acc.
Proof.
  destruct rest as [|c r]; [reflexivity|]. intros (Hd & _). simpl.
  unfold digit_value. rewrite Hd.
  unfold in_range.
  destruct (97 <=? c) eqn:E1, (c <=? 122) eqn:E2; simpl.
  - apply N.leb_le in E1. destruct (N.ltb_spec (c - 87) 10); [lia | reflexivity].
  - destruct (65 <=? c) eqn:E3, (c <=? 90) eqn:E4; simpl; try reflexivity.
    apply N.leb_le in E3. destruct (N.ltb_spec (c - 55) 10); [lia | reflexivity].
  - destruct (65 <=? c) eqn:E3, (c <=? 90) eqn:E4; simpl; try reflexivity.
    apply N.leb_le in E3. destruct (N.ltb_spec (c - 55) 10); [lia | reflexivity].
  - destruct (65 <=? c) eqn:E3, (c <=? 90) eqn:E4; simpl; try reflexivity.
    apply N.leb_le in E3. destruct (N.ltb_spec (c - 55) 10); [lia | reflexivity].
Qed.

Ltac read_one_digit :=
  rewrite str_cons; cbn [app read_digits];
  match goal with |- context [digit_value ?c] =>
    let v := eval vm_compute in (digit_value c) in change (digit_value c) with v end;
  cbv iota; match goal with |- context [(?a <? 10)] => change (a <? 10) with true end;
  cbv iota.

(** Reading the digits of a numeral after a positive value, after the
    value zero, and from the start. *)
Lemma read_digits_pos rest : ends_numeral rest -> forall d p,
  read_digits 10 (Some (N.pos p)) (str (NilEmpty.string_of_uint d) ++ rest)
  = Some (N.pos (Pos.of_uint_acc d p)).
Proof.
  intros Hrest.
  induction d as [|d IH|d IH|d IH|d IH|d IH|d IH|d IH|d IH|d IH|d IH]; intros p;
    cbn [NilEmpty.string_of_uint Pos.of_uint_acc];
    [now apply read_digits_stop|..];
    read_one_digit; rewrite <- IH; f_equal; f_equal; lia.
Qed.

Lemma read_digits_zero rest : ends_numeral rest -> forall d,
  read_digits 10 (Some 0) (str (NilEmpty.string_of_uint d) ++ rest)
  = Some (Pos.of_uint d).
Proof.
  intros Hrest.
  induction d as [|d IH|d IH|d IH|d IH|d IH|d IH|d IH|d IH|d IH|d IH];
    cbn [NilEmpty.string_of_uint Pos.of_uint];
    [now apply read_digits_stop|..]; read_one_digit;
    [exact IH|..]; apply (read_digits_pos rest Hrest).
Qed.

Lemma read_digits_start rest : ends_numeral rest -> forall d,
  d <> Decimal.Nil ->
  read_digits 10 None (str (NilEmpty.string_of_uint d) ++ rest) = Some (Pos.of_uint d).
Proof.
  intros Hrest d Hd. destruct d; [congruence|..];
    cbn [NilEmpty.string_of_uint Pos.of_uint]; read_one_digit;
    [apply (read_digits_zero rest Hrest)|..]; apply (read_digits_pos rest Hrest).
Qed.

Lemma parseInt_zero_tail c r :
  c <> 120 -> c <> 88 ->
  parseInt (48 :: c :: r) = Z.of_N <$> read_digits 10 None (48 :: c :: r)
  /\ parseInt (45 :: 48 :: c :: r)
     = (fun v => (- Z.of_N v)%Z) <$> read_digits 10 None (48 :: c :: r).
Proof.
  intros Hx HX. unfold parseInt.
  change (drop_while is_space (48 :: c :: r)) with (48 :: c :: r).
  change (drop_while is_space (45 :: 48 :: c :: r)) with (45 :: 48 :: c :: r).
  cbv iota.
  destruct c as [|c]; [split; reflexivity|].
  do 7 (destruct c as [c|c|]; try (split; reflexivity)); congruence.
Qed.

(** On a decimal numeral [parseInt] takes no sign and no hex prefix, and
    after a minus sign it negates. *)
Lemma parseInt_digits rest : ends_numeral rest -> forall d,
  d <> Decimal.Nil ->
  parseInt (str (NilEmpty.string_of_uint d) ++ rest)
  = Z.of_N <$> read_digits 10 None (str (NilEmpty.string_of_uint d) ++ rest)
  /\ parseInt (45 :: str (NilEmpty.string_of_uint d) ++ rest)
     = (fun v => (- Z.of_N v)%Z)
       <$> read_digits 10 None (str (NilEmpty.string_of_uint d) ++ rest).
Proof.
  intros Hrest d Hd.
  destruct d as [|d|d|d|d|d|d|d|d|d|d]; [congruence|..];
    cbn [NilEmpty.string_of_uint]; rewrite str_cons; cbn [app];
    try (split; reflexivity).
  destruct d as [|d|d|d|d|d|d|d|d|d|d]; cbn [NilEmpty.string_of_uint];
    try (rewrite str_cons; cbn [app]); try (split; reflexivity).
  destruct rest as [|c r]; [split; reflexivity|].
  destruct Hrest as (_ & Hx & HX). now apply parseInt_zero_tail.
Qed.

Lemma num_to_string_digits n :
  exists d, d <> Decimal.Nil
            /\ num_to_string n = str (NilEmpty.string_of_uint d)
            /\ Pos.of_uint d = n.
Proof.
  exists (N.to_uint n). split; [apply to_uint_not_nil|]. split.
  - unfold num_to_string, NilZero.string_of_uint.
    pose proof (to_uint_not_nil n). destruct (N.to_uint n); [congruence|..]; reflexivity.
  - apply (Unsigned.of_to n).
Qed.

Lemma parseInt_num_to_string n rest :
  ends_numeral rest ->
  parseInt (num_to_string n ++ rest) = Some (Z.of_N n)
  /\ parseInt (45 :: num_to_string n ++ rest) = Some (- Z.of_N n)%Z.
Proof.
  intros Hrest. destruct (num_to_string_digits n) as (d & Hd & -> & <-).
  destruct (parseInt_digits rest Hrest d Hd) as [-> ->].
  rewrite read_digits_start by assumption. split; reflexivity.
Qed.

(** X6.  [parseInt] reads back what a template prints: the decimal digits
    of [n] give [n], with a minus sign in front [-n], and a text after the
    digits is ignored when it starts with neither a digit nor an [x].  So a
    count flag with such a value gives [generate] the count [n], and an
    integer printed by [`${z}`] is read back as [z]. *)
Theorem parseInt_decimal n rest :
  ends_numeral rest ->
  parseInt (num_to_string n ++ rest) = Some (Z.of_N n)
  /\ parseInt (45 :: num_to_string n ++ rest) = Some (- Z.of_N n)%Z
  /\ (forall flags out,
        flags !! str "count" = Some (num_to_string n ++ rest) ->
        count (generate_options flags out) = Some (Z.of_N n))
  /\ (forall z, parseInt (z_to_string z) = Some z).
Proof.
  intros Hrest.
  destruct (parseInt_num_to_string n rest Hrest) as [H1 H2].
  split; [exact H1|]. split; [exact H2|]. split.
  - intros flags out Hflag. unfold generate_options. cbn [count]. rewrite Hflag.
    destruct (num_to_string n ++ rest) as [|c v]; [discriminate H1 | exact H1].
  - intros z. unfold z_to_string.
    destruct (Z.ltb_spec z 0).
    + pose proof (proj2 (parseInt_num_to_string (Z.to_N (- z)) [] I)) as E.
      rewrite app_nil_r in E. rewrite E. f_equal. lia.
    + pose proof (proj1 (parseInt_num_to_string (Z.to_N z) [] I)) as E.
      rewrite app_nil_r in E. rewrite E. f_equal. lia.
Qed.

Lemma parseInt_decimal_witness :
  ends_numeral (str "px") /\ parseInt (str "8px") = Some 8%Z.
Proof.
  assert (H : ends_numeral (str "px")).
  { vm_compute. repeat split; discriminate. }
  split; [exact H|].
  exact (proj1 (parseInt_decimal 8 (str "px") H)).
Defined.

(** ** The prompt list *)

Lemma tag_suffixes_length t :
  (1 <= length (tag_suffixes t) <= 2)%nat.
Proof.
  unfold tag_suffixes.
  destruct (decide (t = str "lighting")); [simpl; lia|].
  destruct (decide (t = str "mood")); simpl; lia.
Qed.

Lemma spec_vary_length tags prompts :
  length (spec_vary tags prompts)
  = (length prompts * list_sum (map (fun t => length (tag_suffixes t)) tags))%nat.
Proof.
  unfold spec_vary.
  assert (Hin : forall b,
             length (flat_map (fun t => map (app b) (tag_suffixes t)) tags)
             = list_sum (map (fun t => length (tag_suffixes t)) tags)).
  { intros b. induction tags as [|t tags IH]; simpl; [reflexivity|].
    now rewrite length_app, length_map, IH. }
  induction prompts as [|b prompts IH]; simpl; [reflexivity|].
  now rewrite length_app, Hin, IH.
Qed.

Lemma tags_weight_bounds tags :
  (length tags <= list_sum (map (fun t => length (tag_suffixes t)) tags)
   <= 2 * length tags)%nat.
Proof.
  induction tags as [|t tags IH]; simpl; [lia|].
  pose proof (tag_suffixes_length t). lia.
Qed.

Lemma styled_and_varied_nonempty base opts :
  (1 <= length (styled_and_varied base opts))%nat.
Proof.
  unfold styled_and_varied.
  assert (Hs : (1 <= length (apply_styles base (styles opts) [base]))%nat).
  { unfold apply_styles. destruct (styles opts) as [[|s ss]|]; simpl; lia. }
  destruct (variations opts) as [[|v vs]|]; try exact Hs.
  rewrite apply_variations_spec by discriminate.
  rewrite spec_vary_length.
  pose proof (tags_weight_bounds (v :: vs)). simpl length in H. nia.
Qed.

(** X7.  What the count does to the number of prompts.  The list after
    styles and variations is never empty.  Without a count, or with count
    0, it is submitted as it is.  A positive count [n] gives between 1 and
    [n] prompts.  A negative count cuts [|n|] prompts off the end, so a
    single prompt with a negative count sends nothing. *)
Theorem generate_prompts_length base opts :
  let sv := styled_and_varied base opts in
  (1 <= length sv)%nat
  /\ match count opts with
     | None => generate_prompts base opts = sv
     | Some n =>
         if (n =? 0)%Z then generate_prompts base opts = sv
         else if (0 <? n)%Z
         then (1 <= length (generate_prompts base opts) <= Z.to_nat n)%nat
         else generate_prompts base opts
              = firstn (Z.to_nat (Z.of_nat (length sv) + n)) sv
     end.
Proof.
  intros sv. pose proof (styled_and_varied_nonempty base opts) as Hsv. fold sv in Hsv.
  split; [exact Hsv|].
  unfold generate_prompts. fold sv.
  destruct (count opts) as [n|]; [|reflexivity].
  destruct (Z.eqb_spec n 0) as [->|Hn0]; [reflexivity|].
  destruct (Z.ltb_spec 0 n) as [Hpos|Hneg].
  - rewrite truncate_to_count_cases by assumption.
    set (l := replicate_single base (Some n) sv).
    assert (Hl : (1 <= length l)%nat).
    { subst l. unfold replicate_single.
      destruct (negb (n =? 0)%Z && (1 <? n)%Z && (length sv =? 1)%nat) eqn:E; [|exact Hsv].
      rewrite repeat_length.
      apply andb_prop in E as [E _]. apply andb_prop in E as [_ E].
      apply Z.ltb_lt in E. lia. }
    destruct (Z.ltb_spec n (Z.of_nat (length l))).
    + rewrite length_firstn. lia.
    + lia.
  - assert (Hlt : (n < 0)%Z) by lia.
    unfold replicate_single.
    destruct (Z.ltb_spec 1 n); [lia|]. rewrite andb_false_r. cbn [andb].
    unfold truncate_to_count, slice_to.
    destruct (Z.eqb_spec n 0); [lia|]. cbn [negb andb].
    destruct (Z.ltb_spec n (Z.of_nat (length sv))); [|lia].
    destruct (Z.ltb_spec n 0); [reflexivity | lia].
Qed.

Lemma flat_map_map {A B C} (f : A -> B) (g : B -> list C) l :
  flat_map g (map f l) = flat_map (fun x => g (f x)) l.
Proof. induction l as [|a l IH]; simpl; [reflexivity | now rewrite IH]. Qed.

(** X8.  Styles and variations multiply: with both lists non-empty the
    prompts are, for each style in order, the variations of the styled
    prompt in tag order.  Their number is the number of styles times the
    number of suffixes of the tags, between [|S| * |V|] and [2 * |S| * |V|],
    whatever the count option is. *)
Theorem styles_times_variations base opts (S V : list jsstring) :
  styles opts = Some S -> S <> [] ->
  variations opts = Some V -> V <> [] ->
  styled_and_varied base opts
  = flat_map (fun s =>
      flat_map (fun t => map (app (base ++ str ", " ++ s ++ str " style"))
                             (tag_suffixes t)) V) S
  /\ length (styled_and_varied base opts)
     = (length S * list_sum (map (fun t => length (tag_suffixes t)) V))%nat
  /\ (length S * length V <= length (styled_and_varied base opts)
      <= 2 * (length S * length V))%nat.
Proof.
  intros HS HSne HV HVne. unfold styled_and_varied. rewrite HS, HV.
  rewrite apply_variations_spec by assumption.
  assert (E : apply_styles base (Some S) [base] = map (styled base) S).
  { destruct S; [congruence | reflexivity]. }
  rewrite E. split.
  - unfold spec_vary. now rewrite flat_map_map.
  - rewrite spec_vary_length, length_map. split; [reflexivity|].
    pose proof (tags_weight_bounds V). nia.
Qed.

Lemma styles_times_variations_witness :
  let opts := {| count := None; styles := Some [str "modern"; str "flat"];
                 variations := Some [str "mood"; str "angle"];
                 outputDir := str "out" |} in
  [str "modern"; str "flat"] <> []
  /\ [str "mood"; str "angle"] <> []
  /\ length (styled_and_varied (str "logo") opts) = 6%nat.
Proof.
  intros opts. split; [discriminate|]. split; [discriminate|].
  rewrite (proj1 (proj2 (styles_times_variations (str "logo") opts
                           [str "modern"; str "flat"] [str "mood"; str "angle"]
                           eq_refl ltac:(discriminate) eq_refl ltac:(discriminate)))).
  vm_compute. reflexivity.
Defined.

(** ** The shape of the allocated names *)

Lemma replace_class_plus_chars (P : N -> Prop) cls by_ s :
  Forall P by_ ->
  Forall (fun c => cls c = false -> P c) s ->
  Forall P (replace_class_plus cls by_ s) /\ Forall P (skip_class_plus cls by_ s).
Proof.
  intros Hby Hs. induction Hs as [|c s Hc Hs [IHr IHs]]; [split; constructor|].
  simpl. destruct (cls c) eqn:E.
  - split; [apply Forall_app; auto | exact IHs].
  - split; constructor; auto.
Qed.

Lemma kept_not_space_name_char c :
  is_kept c = true -> is_space c = false -> is_name_char c = true.
Proof.
  unfold is_kept, is_name_char. intros Hk Hs. rewrite Hs, orb_false_r in Hk.
  now rewrite Hk.
Qed.

Lemma genFilename_base_chars lower prompt :
  genFilename_base lower prompt <> []
  /\ Forall (fun c => is_name_char c = true) (genFilename_base lower prompt).
Proof.
  unfold genFilename_base, slice0. rewrite replace_class_filter.
  set (t := replace_class_plus is_space [underscore] (List.filter is_kept (lower prompt))).
  assert (Ht : Forall (fun c => is_name_char c = true) t).
  { apply (replace_class_plus_chars (fun c => is_name_char c = true)).
    - repeat constructor.
    - apply List.Forall_forall. intros c Hc Hs.
      apply filter_In in Hc as [_ Hk]. now apply kept_not_space_name_char. }
  destruct (firstn 32 t) as [|c r] eqn:E; simpl or_else.
  - split; [discriminate|]. vm_compute. repeat constructor.
  - split; [discriminate|]. rewrite <- E. now apply Forall_take.
Qed.

Lemma num_to_string_chars n : Forall (fun c => is_digit c = true) (num_to_string n).
Proof.
  destruct (num_to_string_digits n) as (d & _ & -> & _).
  induction d; cbn [NilEmpty.string_of_uint]; [constructor|..];
    rewrite str_cons; constructor; try exact IHd; reflexivity.
Qed.

(** X9.  Every name that [genFilename] returns is a non-empty stem of
    characters of [a-z0-9_] followed by [.png]: whatever the prompt, the
    name has no path separator, no dot in the stem and no upper case, and
    it is never just the extension. *)
Theorem genFilename_safe_name lower prompt idx dir :
  exists stem,
    genFilename lower prompt idx dir = stem ++ str ".png"
    /\ stem <> []
    /\ Forall (fun c => is_name_char c = true) stem.
Proof.
  destruct (genFilename_runs lower prompt idx dir) as (k & _ & Hres & _).
  destruct (genFilename_base_chars lower prompt) as (Hne & Hchars).
  rewrite Hres. destruct k as [|k]; unfold candidate.
  - eexists. split; [reflexivity|]. auto.
  - exists (genFilename_base lower prompt ++ str "_"
            ++ num_to_string (first_counter idx + N.of_nat k)).
    split; [now rewrite <- !app_assoc|].
    split; [destruct (genFilename_base lower prompt); [congruence | discriminate]|].
    apply Forall_app. split; [exact Hchars|].
    apply Forall_app. split; [repeat constructor|].
    eapply Forall_impl; [apply num_to_string_chars|].
    intros c Hc. unfold is_name_char. rewrite Hc. now rewrite orb_true_r.
Qed.

(** ** Files are never overwritten *)

Lemma path_join_inj out a b : path_join out a = path_join out b -> a = b.
Proof.
  unfold path_join. intros H. apply app_inv_head in H. now apply app_inv_head in H.
Qed.

Lemma new_files_init out d0 : new_files out d0 d0 [].
Proof.
  repeat split; [constructor | constructor | simpl; lia | auto].
Qed.

(** Saving under a name that is free keeps the invariant. *)
Lemma new_files_save out d0 d files name b64 :
  new_files out d0 d files ->
  name ∉ dom d ->
  new_files out d0 (<[name := b64]> d) (files ++ [path_join out name]).
Proof.
  intros (Hnd & Hall & Hsize & Hkeep) Hfree.
  assert (Hnone : d !! name = None) by (now apply not_elem_of_dom).
  repeat split.
  - apply NoDup_app. split; [exact Hnd|]. split; [|apply NoDup_singleton].
    intros f Hf Hin. apply list_elem_of_singleton in Hin. subst f.
    rewrite Forall_forall in Hall. destruct (Hall _ Hf) as (n & E & Hsome & _).
    apply path_join_inj in E. subst n. rewrite Hnone in Hsome.
    destruct Hsome as [x Hx]. discriminate.
  - apply Forall_app. split.
    + eapply Forall_impl; [exact Hall|].
      intros f (n & -> & Hsome & H0). exists n. split; [reflexivity|].
      split; [|exact H0]. apply lookup_insert_is_Some.
      destruct (decide (name = n)); auto.
    + constructor; [|constructor]. exists name. split; [reflexivity|].
      split; [rewrite lookup_insert_eq; eauto|].
      destruct (d0 !! name) as [x|] eqn:E; [|reflexivity].
      apply Hkeep in E. congruence.
  - rewrite map_size_insert_None by assumption. rewrite length_app. simpl. lia.
  - intros n data Hn. rewrite lookup_insert_ne; [now apply Hkeep|].
    intros ->. apply Hkeep in Hn. congruence.
Qed.

Lemma generate_item_new_files lower api out d0 i p st :
  new_files out d0 (disk (fst st)) (snd st) ->
  new_files out d0 (disk (fst (generate_item lower api out i p st)))
            (snd (generate_item lower api out i p st)).
Proof.
  intros Hinv. unfold generate_item.
  destruct (api i p) as [msg|parts]; [exact Hinv|].
  destruct (first_image parts) as [b64|]; [|exact Hinv].
  cbn [fst snd saveImage print send disk].
  apply new_files_save; [exact Hinv | apply genFilename_fresh].
Qed.

Lemma generate_loop_new_files lower api out d0 prompts : forall i st,
  new_files out d0 (disk (fst st)) (snd st) ->
  new_files out d0 (disk (fst (generate_loop lower api out i prompts st)))
            (snd (generate_loop lower api out i prompts st)).
Proof.
  induction prompts as [|p prompts IH]; intros i st Hinv; simpl; [exact Hinv|].
  apply IH. now apply generate_item_new_files.
Qed.

(** X10.  [generate] never overwrites a file.  The files it returns are
    pairwise distinct, each is an entry of the output directory under a
    name that was free when the call started, the directory has exactly
    one new entry per returned file, and the entries it had keep their
    contents. *)
Theorem generate_new_files lower api env key prompt opts w :
  getApiKey env = Normal key ->
  exists files,
    snd (generate lower api env prompt opts w) = Normal files
    /\ new_files (outputDir opts) (disk w)
         (disk (fst (generate lower api env prompt opts w))) files.
Proof.
  intros Hkey. unfold generate. rewrite Hkey. cbn [fst snd].
  eexists. split; [reflexivity|].
  apply generate_loop_new_files. cbn [fst snd print disk]. apply new_files_init.
Qed.

Lemma generate_new_files_witness :
  let env : gmap jsstring jsstring := {[ str "GEMINI_API_KEY" := str "k" ]} in
  let api := fun (_ : nat) (_ : jsstring) =>
    Resolved [ {| inlineData_data := Some (str "QUJD"); text := None |} ] in
  let w := {| disk := {[ str "cat.png" := str "old" ]}; console := []; requests := [] |} in
  let opts := {| count := Some 2%Z; styles := None; variations := None;
                 outputDir := str "out" |} in
  getApiKey env = Normal (str "k")
  /\ exists files,
       snd (generate asciiLower api env (str "cat") opts w) = Normal files
       /\ new_files (str "out") (disk w)
            (disk (fst (generate asciiLower api env (str "cat") opts w))) files.
Proof.
  intros env api w opts.
  assert (Hkey : getApiKey env = Normal (str "k")) by (vm_compute; reflexivity).
  split; [exact Hkey|].
  exact (generate_new_files asciiLower api env (str "k") (str "cat") opts w Hkey).
Defined.

(** ** The names of the copies of one prompt *)

Lemma numbered_name_inj slug a b :
  numbered_name slug a = numbered_name slug b -> a = b.
Proof.
  unfold numbered_name. intros H.
  apply app_inv_head in H. apply app_inv_head in H.
  apply app_inv_tail in H. now apply num_to_string_inj.
Qed.

Lemma candidate_numbered slug (j : nat) :
  (1 <= j)%nat -> candidate slug 1 j = numbered_name slug (N.of_nat j).
Proof.
  intros Hj. destruct j as [|j]; [lia|].
  rewrite candidate_S. f_equal. lia.
Qed.

Lemma genFilename_plain_free (lower : jsstring -> jsstring) (p : jsstring) (idx : N)
    (dir : gset jsstring) :
  plain_name (genFilename_base lower p) ∉ dir ->
  genFilename lower p idx dir = plain_name (genFilename_base lower p).
Proof.
  intros Hfree. unfold genFilename. simpl genFilename_loop.
  apply existsSync_false in Hfree. now rewrite Hfree.
Qed.

Lemma genFilename_numbered (lower : jsstring -> jsstring) (p : jsstring) (idx : N)
    (dir : gset jsstring) :
  0 < idx ->
  plain_name (genFilename_base lower p) ∈ dir ->
  numbered_name (genFilename_base lower p) idx ∉ dir ->
  genFilename lower p idx dir = numbered_name (genFilename_base lower p) idx.
Proof.
  intros Hidx Hin Hfree. unfold genFilename.
  apply N.ltb_lt in Hidx. rewrite Hidx.
  destruct (size dir) as [|k] eqn:Hsize.
  - apply size_empty_inv in Hsize. exfalso. apply (Hsize _) in Hin.
    now apply not_elem_of_empty in Hin.
  - simpl genFilename_loop.
    apply existsSync_true in Hin. rewrite Hin.
    apply existsSync_false in Hfree. now rewrite Hfree.
Qed.

Lemma generate_item_delivers lower api out i p st :
  delivers (api i p) = true ->
  exists b64,
    generate_item lower api out i p st
    = (let name := genFilename lower p (N.of_nat i) (dom (disk (fst st))) in
       (print (Log (str "  " ++ path_join out name))
          {| disk := <[name := b64]> (disk (fst st));
             console := console (fst st);
             requests := requests (fst st) ++ [p] |},
        snd st ++ [path_join out name])).
Proof.
  unfold delivers, generate_item.
  destruct (api i p) as [msg|parts]; [discriminate|].
  destruct (first_image parts) as [b64|]; [|discriminate].
  intros _. exists b64. reflexivity.
Qed.

Lemma generate_loop_copies lower api out p m : forall i st,
  (1 <= i)%nat ->
  (forall j, (i <= j < i + m)%nat -> delivers (api j p) = true) ->
  plain_name (genFilename_base lower p) ∈ dom (disk (fst st)) ->
  (forall j, (i <= j < i + m)%nat ->
     numbered_name (genFilename_base lower p) (N.of_nat j) ∉ dom (disk (fst st))) ->
  snd (generate_loop lower api out i (repeat p m) st)
  = snd st ++ map (fun j => path_join out
                     (numbered_name (genFilename_base lower p) (N.of_nat j)))
                  (seq i m).
Proof.
  induction m as [|m IH]; intros i st Hi Hdel Hplain Hfree; simpl.
  - now rewrite app_nil_r.
  - destruct (generate_item_delivers lower api out i p st) as (b64 & E);
      [apply Hdel; lia|].
    rewrite genFilename_numbered in E; [|lia | exact Hplain | apply Hfree; lia].
    rewrite E. rewrite IH.
    + cbn [fst snd]. now rewrite <- app_assoc.
    + lia.
    + intros j Hj. apply Hdel. lia.
    + cbn [fst snd print disk]. rewrite dom_insert_L. set_solver.
    + intros j Hj. cbn [fst snd print disk]. rewrite dom_insert_L.
      intros Hin. apply elem_of_union in Hin as [Hin|Hin].
      * apply elem_of_singleton in Hin. apply numbered_name_inj in Hin. lia.
      * revert Hin. apply Hfree. lia.
Qed.

Lemma generate_prompts_copies p (n : nat) out :
  (1 <= n)%nat ->
  generate_prompts p {| count := Some (Z.of_nat n); styles := None;
                        variations := None; outputDir := out |}
  = repeat p n.
Proof.
  intros Hn. unfold generate_prompts, styled_and_varied.
  cbn [count styles variations apply_styles apply_variations].
  rewrite truncate_to_count_cases by lia.
  unfold replicate_single.
  destruct (Z.eqb_spec (Z.of_nat n) 0); [lia|].
  destruct (Z.ltb_spec 1 (Z.of_nat n)); cbn [negb andb length Nat.eqb].
  - rewrite repeat_length, Nat2Z.id, Z.ltb_irrefl. reflexivity.
  - assert (n = 1%nat) as -> by lia. reflexivity.
Qed.

(** X11.  The copies of one prompt are named by their ordinal.  When
    [generate] is called with a count [n >= 1] and no styles or variations,
    every request delivers, and the output directory has none of the names
    [slug.png], [slug_1.png], ..., [slug_{n-1}.png], the files returned are
    exactly these names, in this order. *)
Theorem generate_copies_names lower api env key p (n : nat) out w :
  let slug := genFilename_base lower p in
  getApiKey env = Normal key ->
  (1 <= n)%nat ->
  (forall j, (j < n)%nat -> delivers (api j p) = true) ->
  (forall k, (k < n)%nat -> candidate slug 1 k ∉ dom (disk w)) ->
  snd (generate lower api env p
         {| count := Some (Z.of_nat n); styles := None; variations := None;
            outputDir := out |} w)
  = Normal (map (fun k => path_join out (candidate slug 1 k)) (seq 0 n)).
Proof.
  intros slug Hkey Hn Hdel Hfree. unfold generate. rewrite Hkey. cbn [fst snd].
  rewrite generate_prompts_copies by assumption. cbn [outputDir].
  destruct n as [|m]; [lia|]. f_equal.
  cbn [repeat generate_loop seq map].
  set (w1 := print _ w).
  destruct (generate_item_delivers lower api out 0 p (w1, [])) as (b64 & E);
    [apply Hdel; lia|].
  rewrite genFilename_plain_free in E by (apply (Hfree 0%nat); lia).
  rewrite E. rewrite generate_loop_copies.
  - cbn [fst snd app]. f_equal.
    apply map_ext_in. intros k Hk. apply in_seq in Hk.
    fold slug. rewrite candidate_numbered by lia. reflexivity.
  - lia.
  - intros j Hj. apply Hdel. lia.
  - cbn [fst snd print disk]. rewrite dom_insert_L. set_solver.
  - intros j Hj. cbn [fst snd print disk]. rewrite dom_insert_L.
    fold slug. rewrite <- candidate_numbered by lia.
    intros Hin. apply elem_of_union in Hin as [Hin|Hin].
    + apply elem_of_singleton in Hin.
      change (plain_name slug) with (candidate slug 1 0) in Hin.
      apply candidate_inj in Hin. lia.
    + revert Hin. apply Hfree. lia.
Qed.

Lemma generate_copies_names_witness :
  let env : gmap jsstring jsstring := {[ str "GEMINI_API_KEY" := str "k" ]} in
  let api := fun (_ : nat) (_ : jsstring) =>
    Resolved [ {| inlineData_data := Some (str "QUJD"); text := None |} ] in
  let w := {| disk := ∅; console := []; requests := [] |} in
  getApiKey env = Normal (str "k")
  /\ snd (generate asciiLower api env (str "cat")
            {| count := Some (Z.of_nat 3); styles := None; variations := None;
               outputDir := str "out" |} w)
     = Normal [str "out/cat.png"; str "out/cat_1.png"; str "out/cat_2.png"].
Proof.
  intros env api w.
  assert (Hkey : getApiKey env = Normal (str "k")) by (vm_compute; reflexivity).
  split; [exact Hkey|].
  rewrite (generate_copies_names asciiLower api env (str "k") (str "cat") 3 (str "out") w
             Hkey ltac:(lia)).
  - vm_compute. reflexivity.
  - intros j _. reflexivity.
  - intros k _. cbn [disk w]. rewrite dom_empty_L. apply not_elem_of_empty.
Defined.

(** ** [story] *)

Section StoryProofs.

Variable lower : jsstring -> jsstring.
Variable api : nat -> jsstring -> response.
Variables (out prompt : jsstring) (steps : Z) (type : jsstring) (opts : StoryOptions).

Lemma story_item_requests i st :
  requests (fst (story_item lower api out prompt steps type opts i st))
  = requests (fst st) ++ [story_prompt prompt steps type opts i].
Proof.
  unfold story_item.
  destruct (api i _) as [msg|parts]; [reflexivity|].
  destruct (first_image parts); reflexivity.
Qed.

Lemma story_item_files i st :
  (length (snd (story_item lower api out prompt steps type opts i st))
   <= S (length (snd st)))%nat.
Proof.
  unfold story_item.
  destruct (api i _) as [msg|parts]; cbn [snd]; [lia|].
  destruct (first_image parts); cbn [snd]; [|lia].
  rewrite length_app. simpl. lia.
Qed.

Lemma story_item_new_files d0 i st :
  new_files out d0 (disk (fst st)) (snd st) ->
  new_files out d0 (disk (fst (story_item lower api out prompt steps type opts i st)))
            (snd (story_item lower api out prompt steps type opts i st)).
Proof.
  intros Hinv. unfold story_item.
  destruct (api i _) as [msg|parts]; [exact Hinv|].
  destruct (first_image parts) as [b64|]; [|exact Hinv].
  cbn [fst snd saveImage print send disk].
  apply new_files_save; [exact Hinv | apply genFilename_fresh].
Qed.

Lemma story_loop_requests n : forall i st,
  requests (fst (story_loop lower api out prompt steps type opts n i st))
  = requests (fst st) ++ map (story_prompt prompt steps type opts) (seq i n).
Proof.
  induction n as [|n IH]; intros i st; simpl; [now rewrite app_nil_r|].
  rewrite IH, story_item_requests. now rewrite <- app_assoc.
Qed.

Lemma story_loop_files n : forall i st,
  (length (snd (story_loop lower api out prompt steps type opts n i st))
   <= length (snd st) + n)%nat.
Proof.
  induction n as [|n IH]; intros i st; simpl; [lia|].
  etransitivity; [apply IH|].
  pose proof (story_item_files i st). lia.
Qed.

Lemma story_loop_new_files d0 n : forall i st,
  new_files out d0 (disk (fst st)) (snd st) ->
  new_files out d0 (disk (fst (story_loop lower api out prompt steps type opts n i st)))
            (snd (story_loop lower api out prompt steps type opts n i st)).
Proof.
  induction n as [|n IH]; intros i st Hinv; simpl; [exact Hinv|].
  apply IH. now apply story_item_new_files.
Qed.

End StoryProofs.

(** X12.  [story] sends one request per step, in order, whatever the
    responses are: the prompt of step [i] is the one the loop builds for
    [i], there are as many requests as [opts.steps || 4] says (4 when steps
    is missing or 0, none when it is negative), and at most one file per
    step is returned. *)
Theorem story_requests lower api env key prompt opts w :
  getApiKey env = Normal key ->
  let steps := story_step_count opts in
  let type := opt_or (story_type opts) (str "story") in
  exists files,
    snd (story lower api env prompt opts w) = Normal files
    /\ requests (fst (story lower api env prompt opts w))
       = requests w ++ map (story_prompt prompt steps type opts) (seq 0 (Z.to_nat steps))
    /\ (length files <= Z.to_nat steps)%nat
    /\ ((story_steps opts = None \/ story_steps opts = Some 0%Z) -> steps = 4%Z).
Proof.
  intros Hkey steps type. unfold story. rewrite Hkey. cbn [fst snd].
  fold steps type. eexists. split; [reflexivity|].
  split; [now rewrite story_loop_requests|].
  split.
  - etransitivity; [apply story_loop_files|]. simpl. lia.
  - unfold steps, story_step_count. intros [-> | ->]; reflexivity.
Qed.

Lemma story_requests_witness :
  let env : gmap jsstring jsstring := {[ str "GEMINI_API_KEY" := str "k" ]} in
  let w := {| disk := ∅; console := []; requests := [] |} in
  let opts := {| story_steps := Some 2%Z; story_type := Some (str "process");
                 story_style := None; story_transition := None;
                 story_outputDir := str "out" |} in
  getApiKey env = Normal (str "k")
  /\ requests (fst (story asciiLower (fun _ _ => Resolved []) env (str "tea") opts w))
     = [str "tea, step 1 of 2, instructional illustration";
        str "tea, step 2 of 2, instructional illustration, smooth transition"].
Proof.
  intros env w opts.
  assert (Hkey : getApiKey env = Normal (str "k")) by (vm_compute; reflexivity).
  split; [exact Hkey|].
  destruct (story_requests asciiLower (fun _ _ => Resolved []) env (str "k") (str "tea")
              opts w Hkey) as (files & _ & Hreq & _).
  rewrite Hreq. vm_compute. reflexivity.
Defined.

(** X13.  [story] never overwrites a file: the files it returns are
    pairwise distinct, each a new entry of the output directory under a
    name that was free when the call started, and the entries the
    directory had keep their contents, also when the slugs of several
    steps coincide. *)
Theorem story_new_files lower api env key prompt opts w :
  getApiKey env = Normal key ->
  exists files,
    snd (story lower api env prompt opts w) = Normal files
    /\ new_files (story_outputDir opts) (disk w)
         (disk (fst (story lower api env prompt opts w))) files.
Proof.
  intros Hkey. unfold story. rewrite Hkey. cbn [fst snd].
  eexists. split; [reflexivity|].
  apply story_loop_new_files. cbn [fst snd print disk]. apply new_files_init.
Qed.

Lemma story_new_files_witness :
  let env : gmap jsstring jsstring := {[ str "GEMINI_API_KEY" := str "k" ]} in
  let api := fun (_ : nat) (_ : jsstring) =>
    Resolved [ {| inlineData_data := Some (str "QUJD"); text := None |} ] in
  let w := {| disk := ∅; console := []; requests := [] |} in
  let opts := {| story_steps := Some 3%Z;
                 story_type := Some (str "a very long type name that fills the stem");
                 story_style := None; story_transition := None;
                 story_outputDir := str "out" |} in
  getApiKey env = Normal (str "k")
  /\ exists files,
       snd (story asciiLower api env (str "tea") opts w) = Normal files
       /\ new_files (str "out") (disk w)
            (disk (fst (story asciiLower api env (str "tea") opts w))) files.
Proof.
  intros env api w opts.
  assert (Hkey : getApiKey env = Normal (str "k")) by (vm_compute; reflexivity).
  split; [exact Hkey|].
  exact (story_new_files asciiLower api env (str "k") (str "tea") opts w Hkey).
Defined.

(** ** [findFile] and [edit] *)

Section EditProofs.

Variable node_path_join : jsstring -> jsstring -> jsstring.
Variable isAbsolute : jsstring -> bool.
Variable path_exists : jsstring -> bool.
Variable cwd : jsstring.
Variable HOME : option jsstring.
Variable readFile : jsstring -> completion jsstring.
Variable lower : jsstring -> jsstring.
Variable api_edit : jsstring -> jsstring -> response.

Local Abbreviation findFile' := (findFile node_path_join isAbsolute path_exists cwd HOME).
Local Abbreviation paths' := (findFile_paths node_path_join cwd HOME).
Local Abbreviation search' := (findFile_search node_path_join path_exists).
Local Abbreviation edit' :=
  (edit node_path_join isAbsolute path_exists cwd HOME readFile lower api_edit).

Lemma findFile_search_first paths filename :
  match search' paths filename with
  | Some full =>
      path_exists full = true
      /\ exists before d after,
           paths = before ++ d :: after
           /\ full = node_path_join d filename
           /\ Forall (fun d' => path_exists (node_path_join d' filename) = false) before
  | None => Forall (fun d => path_exists (node_path_join d filename) = false) paths
  end.
Proof.
  induction paths as [|d paths IH]; simpl; [constructor|].
  destruct (path_exists (node_path_join d filename)) eqn:E.
  - split; [exact E|]. exists [], d, paths. repeat split; constructor.
  - destruct (search' paths filename) as [full|].
    + destruct IH as (Hex & before & d' & after & -> & -> & Hbefore).
      split; [exact Hex|]. exists (d :: before), d', after.
      repeat split. now constructor.
    + now constructor.
Qed.

(** X14.  [findFile] returns a path that exists: the file name itself
    when it is absolute and exists, else its copy in the first of the
    working directory, the output directory, Downloads and Desktop that has
    one.  It returns [null] exactly when none of these exists. *)
Theorem findFile_first_existing filename :
  let paths := findFile_paths node_path_join cwd HOME in
  match findFile node_path_join isAbsolute path_exists cwd HOME filename with
  | Some full =>
      path_exists full = true
      /\ ((isAbsolute filename = true /\ full = filename)
          \/ ((isAbsolute filename = false \/ path_exists filename = false)
              /\ exists before d after,
                   paths = before ++ d :: after
                   /\ full = node_path_join d filename
                   /\ Forall (fun d' => path_exists (node_path_join d' filename) = false)
                        before))
  | None =>
      (isAbsolute filename = false \/ path_exists filename = false)
      /\ Forall (fun d => path_exists (node_path_join d filename) = false) paths
  end.
Proof.
  intros paths. subst paths. unfold findFile.
  destruct (isAbsolute filename) eqn:Ha, (path_exists filename) eqn:He; cbn [andb];
    try (split; [exact He | left; auto]);
    pose proof (findFile_search_first paths' filename) as H;
    destruct (search' paths' filename) as [full|];
    try (destruct H as (Hex & Hrest); split; [exact Hex | right; split; [auto | exact Hrest]]);
    split; auto.
Qed.


End EditProofs.


(** ** Cases of [main] *)

Lemma exit_status_normal r files : snd r = Normal files -> exit_status r = (fst r, 0%Z).
Proof. destruct r as [w c]. simpl. now intros ->. Qed.

Lemma icon_sizes_pos flags : (1 <= icon_sizes flags)%nat.
Proof.
  unfold icon_sizes.
  pose proof (split_on_nonempty 44 (opt_or (flags !! str "sizes") (str "256"))) as H.
  destruct (split_on 44 _); [congruence | simpl; lia].
Qed.

(** X16.  The icon command sends as many requests as the [--sizes] flag
    has comma-separated entries (one without the flag), all with the same
    prompt, and leaves with status 0; the sizes themselves are not part of
    the prompt. *)
Theorem main_icon_requests lower api env key out args w :
  getApiKey env = Normal key ->
  join (str " ") (fst (parseArgs args)) <> [] ->
  let flags := snd (parseArgs args) in
  let full := icon_prompt flags (join (str " ") (fst (parseArgs args))) in
  requests (fst (main_icon lower api env out args w))
  = requests w ++ repeat full (icon_sizes flags)
  /\ snd (main_icon lower api env out args w) = 0%Z
  /\ (1 <= icon_sizes flags)%nat
  /\ (forall v prompt, icon_prompt (<[str "sizes" := v]> flags) prompt
                       = icon_prompt flags prompt).
Proof.
  intros Hkey Hprompt flags full. unfold main_icon. fold flags.
  destruct (join (str " ") (fst (parseArgs args))) as [|c p] eqn:E; [congruence|].
  fold full.
  destruct (generate_returns lower api env key full
              {| count := Some (Z.of_nat (icon_sizes flags)); styles := None;
                 variations := None; outputDir := out |} w Hkey)
    as (files & Hfiles & Hreq & _).
  rewrite (exit_status_normal _ files Hfiles). cbn [fst snd].
  rewrite Hreq, generate_prompts_copies by apply icon_sizes_pos.
  repeat split; [apply icon_sizes_pos|].
  intros v prompt. unfold icon_prompt.
  rewrite !lookup_insert_ne by (vm_compute; discriminate). reflexivity.
Qed.

Lemma main_icon_requests_witness :
  let env : gmap jsstring jsstring := {[ str "GEMINI_API_KEY" := str "k" ]} in
  let w := {| disk := ∅; console := []; requests := [] |} in
  let args := [str "gear"; str "--sizes=64,128,256"; str "--type=favicon"] in
  getApiKey env = Normal (str "k")
  /\ join (str " ") (fst (parseArgs args)) <> []
  /\ requests (fst (main_icon asciiLower (fun _ _ => Resolved []) env (str "out") args w))
     = repeat (str "gear, modern style favicon, clean design, high quality") 3.
Proof.
  intros env w args.
  assert (Hkey : getApiKey env = Normal (str "k")) by (vm_compute; reflexivity).
  assert (Hp : join (str " ") (fst (parseArgs args)) <> [])
    by (vm_compute; discriminate).
  split; [exact Hkey|]. split; [exact Hp|].
  rewrite (proj1 (main_icon_requests asciiLower (fun _ _ => Resolved []) env (str "k")
                    (str "out") args w Hkey Hp)).
  vm_compute. reflexivity.
Defined.

(** X17.  The generate command without a positional argument prints
    the error on the missing prompt and leaves with status 1, whatever the
    flags and the environment are: no key is looked up and nothing is
    sent. *)
Theorem main_generate_no_prompt lower api env out args w :
  List.filter is_positional args = [] ->
  main_generate lower api env out args w
  = (print (Err (str "Error: provide a prompt")) w, 1%Z).
Proof.
  intros Hnone. unfold main_generate.
  assert (E : fst (parseArgs args) = []).
  { unfold parseArgs. rewrite parseArgs_fold_positional, Hnone. reflexivity. }
  rewrite E. reflexivity.
Qed.

Lemma main_generate_no_prompt_witness :
  List.filter is_positional [str "--count=4"; str "-p"] = []
  /\ main_generate asciiLower (fun _ _ => Resolved []) ∅ (str "out")
       [str "--count=4"; str "-p"] {| disk := ∅; console := []; requests := [] |}
     = ({| disk := ∅; console := [Err (str "Error: provide a prompt")]; requests := [] |},
        1%Z).
Proof.
  split; [vm_compute; reflexivity|].
  apply (main_generate_no_prompt asciiLower (fun _ _ => Resolved []) ∅ (str "out")
           [str "--count=4"; str "-p"]).
  vm_compute. reflexivity.
Defined.

(** X18.  An unknown command word is a prompt: the default case sends
    exactly one request, whose prompt is the command word and the
    positional arguments joined by spaces, and leaves with status 0; the
    flags count, styles and variations have no effect there. *)
Theorem main_default_one_request lower api env key out cmd args w :
  getApiKey env = Normal key ->
  requests (fst (main_default lower api env out cmd args w))
  = requests w ++ [join (str " ") (cmd :: List.filter is_positional args)]
  /\ snd (main_default lower api env out cmd args w) = 0%Z.
Proof.
  intros Hkey. unfold main_default.
  assert (E : fst (parseArgs args) = List.filter is_positional args)
    by apply (parseArgs_fold_positional args ([], ∅)).
  rewrite E.
  set (prompt := join (str " ") (cmd :: List.filter is_positional args)).
  destruct (generate_returns lower api env key prompt
              {| count := None; styles := None; variations := None; outputDir := out |}
              w Hkey)
    as (files & Hfiles & Hreq & _).
  rewrite (exit_status_normal _ files Hfiles). cbn [fst snd].
  rewrite Hreq. split; reflexivity.
Qed.

Lemma main_default_one_request_witness :
  let env : gmap jsstring jsstring := {[ str "GEMINI_API_KEY" := str "k" ]} in
  let w := {| disk := ∅; console := []; requests := [] |} in
  getApiKey env = Normal (str "k")
  /\ requests (fst (main_default asciiLower (fun _ _ => Resolved []) env (str "out")
                      (str "sunset") [str "over"; str "--count=3"; str "hills"] w))
     = [str "sunset over hills"].
Proof.
  intros env w.
  assert (Hkey : getApiKey env = Normal (str "k")) by (vm_compute; reflexivity).
  split; [exact Hkey|].
  rewrite (proj1 (main_default_one_request asciiLower (fun _ _ => Resolved []) env (str "k")
                    (str "out") (str "sunset") [str "over"; str "--count=3"; str "hills"]
                    w Hkey)).
  vm_compute. reflexivity.
Defined.
